(** * Statute_Finder.py: citation scanner and cross-reference index

    A shallow embedding of [StatuteCrossReferenceFinder] (find_references,
    get_unique_references, create_cross_reference_map, analyze_document)
    together with the part of Python's [re] module the five citation
    patterns exercise, followed by the properties of the analysis.

    Conventions.
    - A Python [str] is a list of Unicode code points ([N]).
    - A Python [int] that the code subtracts from is a [Z]; engine-internal
      offsets are [nat].
    - A Python [dict] is an association list in insertion order with unique
      keys; a [defaultdict(list)] is the same with [dd_append].
    - A Python [set] of strings is a [gset]. *)

From stdpp Require Import gmap strings list sorting.
From Stdlib Require Import Ascii ZArith NArith Lia DecimalString.

(* Pattern texts quoted in comments end in a star and a parenthesis. *)
Set Warnings "-comment-terminator-in-string".

Abbreviation char := N (only parsing).
Abbreviation str := (list N) (only parsing).

(** ** Strings *)

(** Code points of an ASCII literal, for writing patterns and inputs; a
    character outside ASCII is given by its code point. *)
Definition ch (a : ascii) : char := N_of_ascii a.

Fixpoint py (s : string) : str :=
  match s with
  | EmptyString => []
  | String a s' => ch a :: py s'
  end.

(** U+00A7 SECTION SIGN, U+000A LINE FEED, U+0020 SPACE. *)
Definition SECTION_SIGN : char := 167%N.
Definition LF : char := 10%N.
Definition SP : char := 32%N.

(** [len(s)] *)
Definition len {A : Type} (s : list A) : Z := Z.of_nat (length s).

(** One bound of a slice [s[i:j]] (step 1): a negative index counts from
    the end, and both ends are clipped to [0, len]. *)
Definition slice_index (n i : Z) : Z :=
  if (i <? 0)%Z then Z.max 0 (i + n) else Z.min i n.

(** [s[i:j]] *)
Definition py_slice (s : str) (i j : Z) : str :=
  let a := slice_index (len s) i in
  let b := slice_index (len s) j in
  take (Z.to_nat (b - a)) (drop (Z.to_nat a) s).

(** [s.replace(old, new)] for one-character [old] and [new]. *)
Definition replace_char (old new : char) (s : str) : str :=
  (λ c, if (c =? old)%N then new else c) <$> s.

(** ** Ordered dictionaries *)

Section Dict.
Context {K V : Type} `{EqDecision K}.

Fixpoint dict_get (k : K) (d : list (K * V)) : option V :=
  match d with
  | [] => None
  | (k', v) :: d' => if decide (k = k') then Some v else dict_get k d'
  end.

(** [d[k] = v]: an existing key keeps its place, a new one goes last. *)
Fixpoint dict_set (k : K) (v : V) (d : list (K * V)) : list (K * V) :=
  match d with
  | [] => [(k, v)]
  | (k', v') :: d' =>
      if decide (k = k') then (k, v) :: d' else (k', v') :: dict_set k v d'
  end.

Definition keys (d : list (K * V)) : list K := d.*1.
Definition values (d : list (K * V)) : list V := d.*2.
End Dict.

(** [d[k].append(x)] on a [defaultdict(list)]: a missing key is first
    bound to the empty list. *)
Definition dd_append {K A : Type} `{EqDecision K}
    (k : K) (x : A) (d : list (K * list A)) : list (K * list A) :=
  dict_set k (default [] (dict_get k d) ++ [x]) d.

(** ** Character tables

    The matcher consults the interpreter's Unicode database. Its Latin-1
    part (code points below 256) is written out; the rest is a parameter. *)

Record unicode_db := UnicodeDb {
  uni_isdecimal : char → bool;
  uni_isspace : char → bool;
  uni_isalnum : char → bool;
  uni_iscased : char → bool;
  uni_tolower : char → char;
  uni_extra_cases : char → list char
}.

Definition in_range (lo hi c : N) : bool := ((lo <=? c) && (c <=? hi))%N.

Definition in_ranges (rs : list (N * N)) (c : N) : bool :=
  existsb (λ r, in_range r.1 r.2 c) rs.

Section Tables.
Context (db : unicode_db).
Local Open Scope N_scope.

Definition isdecimal (c : char) : bool :=
  if c <? 256 then in_range 48 57 c else uni_isdecimal db c.

Definition isspace (c : char) : bool :=
  if c <? 256 then in_ranges [(9, 13); (28, 32); (133, 133); (160, 160)] c
  else uni_isspace db c.

Definition isalnum (c : char) : bool :=
  if c <? 256 then
    in_ranges [(48, 57); (65, 90); (97, 122); (170, 170); (178, 179);
               (181, 181); (185, 186); (188, 190); (192, 214); (216, 246);
               (248, 255)] c
  else uni_isalnum db c.

(** [\w] *)
Definition isword (c : char) : bool := isalnum c || (c =? 95).

Definition iscased (c : char) : bool :=
  if c <? 256 then
    in_ranges [(65, 90); (97, 122); (181, 181); (192, 214); (216, 246);
               (248, 255)] c
  else uni_iscased db c.

Definition tolower (c : char) : char :=
  if c <? 256 then
    if in_ranges [(65, 90); (192, 214); (216, 222)] c then c + 32 else c
  else uni_tolower db c.

(** Lower-case characters that share their upper case with [c]. *)
Definition extra_cases (c : char) : list char :=
  if c <? 256 then
    if c =? 105 then [305] else if c =? 115 then [383]
    else if c =? 181 then [956] else []
  else uni_extra_cases db c.
End Tables.

(** ** Regular expressions

    The constructs the five patterns use. Matching follows the
    backtracking matcher of [re]: [m r st] lists every way [r] can match
    from [st], the way the matcher prefers first, so that its first
    element is the match the matcher reports. Quantifiers are greedy. *)

Inductive regex :=
| Empty
| Lit (c : char)                         (* a literal character *)
| In (items : list (char * char))        (* [...], as inclusive ranges *)
| Digit                                  (* \d *)
| Space                                  (* \s *)
| Boundary                               (* \b *)
| Seq (r1 r2 : regex)
| Alt (r1 r2 : regex)                    (* r1|r2 *)
| Opt (r : regex)                        (* r? *)
| Star (r : regex)                       (* r* *)
| Plus (r : regex)                       (* r+ *)
| Group (n : nat) (r : regex).           (* the n-th capturing group *)

Definition cat (rs : list regex) : regex := foldr Seq Empty rs.

Fixpoint lits (s : string) : regex :=
  match s with
  | EmptyString => Empty
  | String a s' => Seq (Lit (ch a)) (lits s')
  end.

Fixpoint ngroups (r : regex) : nat :=
  match r with
  | Seq r1 r2 | Alt r1 r2 => ngroups r1 `max` ngroups r2
  | Opt r1 | Star r1 | Plus r1 => ngroups r1
  | Group n r1 => n `max` ngroups r1
  | _ => 0
  end.

(** Every match of the expression takes at least one character. *)
Fixpoint consumes (r : regex) : bool :=
  match r with
  | Lit _ | In _ | Digit | Space => true
  | Seq r1 r2 => consumes r1 || consumes r2
  | Alt r1 r2 => consumes r1 && consumes r2
  | Plus r1 | Group _ r1 => consumes r1
  | Empty | Boundary | Opt _ | Star _ => false
  end.

(** Every repeated sub-expression takes at least one character per
    iteration. *)
Fixpoint loops_consume (r : regex) : bool :=
  match r with
  | Seq r1 r2 | Alt r1 r2 => loops_consume r1 && loops_consume r2
  | Opt r1 | Group _ r1 => loops_consume r1
  | Star r1 | Plus r1 => consumes r1 && loops_consume r1
  | _ => true
  end.

(** The matcher's state: the current offset and the group spans. *)
Record mstate := MState { pos : nat; marks : list (option (nat * nat)) }.

Definition set_mark (n : nat) (sp : nat * nat) (st : mstate) : mstate :=
  MState (pos st) (<[pred n := Some sp]> (marks st)).

(** A greedy loop over [f]: every way of iterating [f] from [st], longest
    first, each iteration having to move forward. The bodies repeated in
    the patterns below always take a character, so the test discards
    nothing there; [fuel] bounds the iterations by the characters left. *)
Fixpoint loop (f : mstate → list mstate) (fuel : nat) (st : mstate)
    : list mstate :=
  match fuel with
  | 0 => [st]
  | S fuel' =>
      (filter (λ st', pos st < pos st') (f st) ≫= loop f fuel') ++ [st]
  end.

Section Matcher.
Context (db : unicode_db) (text : str).

(** A literal under IGNORECASE: an uncased character matches itself; a
    cased one is compared in lower case, also against its extra cases. *)
Definition lit_match (p c : char) : bool :=
  if iscased db p then
    let lo := tolower db p in
    let lc := tolower db c in
    (lc =? lo)%N || existsb (N.eqb lc) (extra_cases db lo)
  else (c =? p)%N.

Definition range_chars (r : char * char) : list char :=
  (λ i, r.1 + N.of_nat i)%N <$> seq 0 (N.to_nat (r.2 + 1 - r.1)).

Definition hascased (items : list (char * char)) : bool :=
  existsb (λ r, existsb (iscased db) (range_chars r)) items.

(** The character set compiled from a class under IGNORECASE: the lower
    case of every member, and the extra cases of those. *)
Definition charset (items : list (char * char)) : list char :=
  items ≫= λ r, range_chars r ≫= λ p,
    let lo := tolower db p in lo :: extra_cases db lo.

Definition in_match (items : list (char * char)) (c : char) : bool :=
  let c' := if hascased items then tolower db c else c in
  existsb (N.eqb c') (charset items).

Definition is_word_at (i : nat) : bool :=
  match text !! i with Some c => isword db c | None => false end.

(** [\b]: exactly one of the two neighbours is a word character. *)
Definition at_boundary (i : nat) : bool :=
  let that := match i with 0 => false | S j => is_word_at j end in
  let this := is_word_at i in
  xorb this that.

Definition one (p : char → bool) (st : mstate) : list mstate :=
  match text !! pos st with
  | Some c => if p c then [MState (S (pos st)) (marks st)] else []
  | None => []
  end.

Definition star (f : mstate → list mstate) (st : mstate) : list mstate :=
  loop f (S (length text - pos st)) st.

(** All the ways [r] matches at [st], in the order a backtracking
    matcher tries them. *)
Fixpoint m (r : regex) (st : mstate) : list mstate :=
  match r with
  | Empty => [st]
  | Lit p => one (lit_match p) st
  | In items => one (in_match items) st
  | Digit => one (isdecimal db) st
  | Space => one (isspace db) st
  | Boundary => if at_boundary (pos st) then [st] else []
  | Seq r1 r2 => m r1 st ≫= m r2
  | Alt r1 r2 => m r1 st ++ m r2 st
  | Opt r1 => m r1 st ++ [st]
  | Star r1 => star (m r1) st
  | Plus r1 => m r1 st ≫= star (m r1)
  | Group n r1 => (λ st', set_mark n (pos st, pos st') st') <$> m r1 st
  end.

(** One match attempt at offset [s]. After an empty match the scanner
    asks for a match that is not empty at the same offset. *)
Definition match_at (r : regex) (s : nat) (must_advance : bool)
    : option mstate :=
  List.find (λ st, negb (must_advance && (pos st =? s)))
    (m r (MState s (replicate (ngroups r) None))).

(** [search]: the first offset from [s] on, among [n + 1], with a match. *)
Fixpoint search (r : regex) (n s : nat) (must_advance : bool)
    : option (nat * mstate) :=
  match match_at r s must_advance with
  | Some st => Some (s, st)
  | None =>
      match n with
      | 0 => None
      | S n' => search r n' (S s) false
      end
  end.
End Matcher.

(** A match object. *)
Record match_obj := Match {
  m_string : str;
  m_start : nat;
  m_end : nat;
  m_regs : list (option (nat * nat))
}.

Definition substr (s : str) (i j : nat) : str := take (j - i) (drop i s).

(** [match.span()] *)
Definition span (mo : match_obj) : Z * Z :=
  (Z.of_nat (m_start mo), Z.of_nat (m_end mo)).

(** [match.group(0)] *)
Definition group0 (mo : match_obj) : str :=
  substr (m_string mo) (m_start mo) (m_end mo).

(** [match.groups()]: [None] for a group that took no part. *)
Definition groups_of (mo : match_obj) : list (option str) :=
  (λ reg : option (nat * nat),
     (λ sp : nat * nat, substr (m_string mo) sp.1 sp.2) <$> reg) <$> m_regs mo.

Section Finditer.
Context (db : unicode_db).

Fixpoint scan (r : regex) (text : str) (fuel s : nat) (must_advance : bool)
    : list match_obj :=
  match fuel with
  | 0 => []
  | S fuel' =>
      match search db text r (length text - s) s must_advance with
      | None => []
      | Some (s', st) =>
          Match text s' (pos st) (marks st)
            :: scan r text fuel' (pos st) (pos st =? s')
      end
  end.

(** [re.finditer(pattern, text, re.IGNORECASE)] *)
Definition finditer (r : regex) (text : str) : list match_obj :=
  scan r text (2 * length text + 2) 0 false.
End Finditer.

(** ** The finder *)

(** The patterns of [StatuteCrossReferenceFinder.__init__], each under the
    text it has in the source; [re.IGNORECASE] is applied by the matcher. *)

Definition dot : regex := Lit (ch ".").
Definition dash : regex := Lit (ch "-").
Definition lower_az : regex := In [(ch "a", ch "z")].
Definition upper_az : regex := In [(ch "A", ch "Z")].
Definition dot_or_dash : regex := In [(ch ".", ch "."); (ch "-", ch "-")].
Definition section_mark : regex := Lit SECTION_SIGN.

(** 'USC': "\b(\d+)\s+U\.?S\.?C\.?\s+§?\s*(\d+[a-z]?(?:-\d+)?)" *)
Definition USC_pattern : regex :=
  cat [Boundary; Group 1 (Plus Digit); Plus Space;
       lits "U"; Opt dot; lits "S"; Opt dot; lits "C"; Opt dot; Plus Space;
       Opt section_mark; Star Space;
       Group 2 (cat [Plus Digit; Opt lower_az; Opt (cat [dash; Plus Digit])])].

(** 'CFR': "\b(\d+)\s+C\.?F\.?R\.?\s+§?\s*(\d+(?:\.\d+)?)" *)
Definition CFR_pattern : regex :=
  cat [Boundary; Group 1 (Plus Digit); Plus Space;
       lits "C"; Opt dot; lits "F"; Opt dot; lits "R"; Opt dot; Plus Space;
       Opt section_mark; Star Space;
       Group 2 (cat [Plus Digit; Opt (cat [dot; Plus Digit])])].

(** 'State_Code': "\b([A-Z][a-z]+)\s+(?:Code|Stat\.?|Rev\.?\s+Stat\.?)\s+§?\s*(\d+(?:[.-]\d+)*)" *)
Definition State_Code_pattern : regex :=
  cat [Boundary; Group 1 (cat [upper_az; Plus lower_az]); Plus Space;
       Alt (lits "Code")
         (Alt (cat [lits "Stat"; Opt dot])
              (cat [lits "Rev"; Opt dot; Plus Space; lits "Stat"; Opt dot]));
       Plus Space; Opt section_mark; Star Space;
       Group 2 (cat [Plus Digit; Star (cat [dot_or_dash; Plus Digit])])].

(** 'Section_Only': "§\s*(\d+(?:[.-]\d+[a-z]?)*)" *)
Definition Section_Only_pattern : regex :=
  cat [section_mark; Star Space;
       Group 1 (cat [Plus Digit;
                     Star (cat [dot_or_dash; Plus Digit; Opt lower_az])])].

(** 'Statute_Year': "\b(Pub\.?\s+L\.?\s+No\.?\s+)(\d+-\d+)" *)
Definition Statute_Year_pattern : regex :=
  cat [Boundary;
       Group 1 (cat [lits "Pub"; Opt dot; Plus Space; lits "L"; Opt dot;
                     Plus Space; lits "No"; Opt dot; Plus Space]);
       Group 2 (cat [Plus Digit; dash; Plus Digit])].

(** The finder object: its only attribute is the pattern dictionary. *)
Record finder := Finder { patterns : list (string * regex) }.

(** [StatuteCrossReferenceFinder()] *)
Definition StatuteCrossReferenceFinder : finder :=
  Finder [("USC", USC_pattern);
          ("CFR", CFR_pattern);
          ("State_Code", State_Code_pattern);
          ("Section_Only", Section_Only_pattern);
          ("Statute_Year", Statute_Year_pattern)].

(** The dictionary [find_references] builds for each match. *)
Record ref_data := RefData {
  full_text : str;
  position : Z * Z;
  groups : list (option str)
}.

(** The dictionary [analyze_document] returns. *)
Record analysis := Analysis {
  total_references : Z;
  unique_references : Z;
  by_type : list (string * Z);
  unique_citations : list (string * gset str);
  cross_reference_map : list (str * list (Z * str));
  all_references : list (string * list ref_data)
}.

(** [sum(...)] *)
Definition py_sum (l : list Z) : Z := foldl Z.add 0%Z l.

Section Finder.
Context (db : unicode_db).

Definition ref_of (mo : match_obj) : ref_data :=
  RefData (group0 mo) (span mo) (groups_of mo).

Definition find_references (self : finder) (text : str)
    : list (string * list ref_data) :=
  foldl (λ results '(ref_type, pattern),
           foldl (λ results mo, dd_append ref_type (ref_of mo) results)
             results (finditer db pattern text))
    [] (patterns self).

Definition get_unique_references (self : finder) (text : str)
    : list (string * gset str) :=
  let refs := find_references self text in
  foldl (λ unique_refs '(ref_type, ref_list),
           dict_set ref_type
             (list_to_set (full_text <$> ref_list) : gset str) unique_refs)
    [] refs.

(** The body of the inner loop of [create_cross_reference_map]. *)
Definition add_location (text : str) (xref_map : list (str * list (Z * str)))
    (ref : ref_data) : list (str * list (Z * str)) :=
  let citation := full_text ref in
  let position := (position ref).1 in
  let start := Z.max 0 (position - 50) in
  let end_ := Z.min (len text) (position + len citation + 50) in
  let context := replace_char LF SP (py_slice text start end_) in
  dd_append citation (position, context) xref_map.

Definition create_cross_reference_map (self : finder) (text : str)
    : list (str * list (Z * str)) :=
  let refs := find_references self text in
  foldl (λ xref_map '(ref_type, ref_list),
           foldl (add_location text) xref_map ref_list)
    [] refs.

Definition analyze_document (self : finder) (text : str) : analysis :=
  let all_refs := find_references self text in
  let unique_refs := get_unique_references self text in
  let xref_map := create_cross_reference_map self text in
  let total_refs := py_sum (len <$> values all_refs) in
  let unique_count :=
    py_sum ((λ refs : gset str, Z.of_nat (size refs)) <$> values unique_refs) in
  Analysis total_refs unique_count
    (foldl (λ d '(k, v), dict_set k (len v) d) [] all_refs)
    unique_refs xref_map all_refs.
End Finder.

(** ** Views of the results used in the statements *)

Section Views.
Context (db : unicode_db).

(** The raw matches of one family, left to right. *)
Definition family_matches (pattern : regex) (text : str) : list ref_data :=
  ref_of <$> finditer db pattern text.

(** All raw matches in processing order: the families in the order of
    the pattern dictionary, each family left to right. *)
Definition raw_matches (self : finder) (text : str) : list ref_data :=
  patterns self ≫= λ fp, family_matches fp.2 text.

(** The families with at least one raw match, with their matches. *)
Definition matched_families (self : finder) (text : str)
    : list (string * list ref_data) :=
  filter (λ g, g.2 ≠ [])
    ((λ fp, (fp.1, family_matches fp.2 text)) <$> patterns self).
End Views.

(** The (position, context) pair recorded for a match. *)
Definition location (text : str) (ref : ref_data) : Z * str :=
  let p := (position ref).1 in
  (p, replace_char LF SP
        (py_slice text (Z.max 0 (p - 50))
           (Z.min (len text) (p + len (full_text ref) + 50)))).

(** Number of raw matches whose surface text is [s]. *)
Definition occurrences (s : str) (refs : list ref_data) : nat :=
  length (filter (λ r, full_text r = s) refs).

(** A database with no digit, space, letter or case above U+00FF. *)
Definition db_latin1 : unicode_db :=
  UnicodeDb (λ _, false) (λ _, false) (λ _, false) (λ _, false)
    (λ c, c) (λ _, []).

(** The sample document of the scenario. *)
Definition sample_text : str :=
  py "42 U.S.C. " ++ SECTION_SIGN
    :: py " 1983 grants relief. See also 42 USC 1983 and 29 CFR 1910.1200.".

(** A bare section citation followed by parenthesised sub-parts. *)
Definition bare_section_text : str := SECTION_SIGN :: py " 501(c)(3)".

(** A citation with sixty blanks on either side. *)
Definition padded_text : str :=
  replicate 60 SP ++ SECTION_SIGN :: py " 12" ++ replicate 60 SP.

(** The same citation twice. *)
Definition repeated_text : str :=
  py "See " ++ SECTION_SIGN :: py " 5 and " ++ SECTION_SIGN :: py " 5".

(** ** Capture groups of an expression *)

(** The [n]-th group takes part in every match of the expression. *)
Fixpoint captures (n : nat) (r : regex) : bool :=
  match r with
  | Seq r1 r2 => captures n r1 || captures n r2
  | Alt r1 r2 => captures n r1 && captures n r2
  | Plus r1 => captures n r1
  | Group k r1 => (k =? n) || captures n r1
  | _ => false
  end.

(** Every group encloses an expression that takes a character, and is
    numbered from 1. *)
Fixpoint groups_consume (r : regex) : bool :=
  match r with
  | Seq r1 r2 | Alt r1 r2 => groups_consume r1 && groups_consume r2
  | Opt r1 | Star r1 | Plus r1 => groups_consume r1
  | Group k r1 => (0 <? k) && consumes r1 && groups_consume r1
  | _ => true
  end.

(** Groups 1 to [ngroups r] all take part in every match. *)
Definition all_captured (r : regex) : bool :=
  forallb (λ n, captures n r) (seq 1 (ngroups r)).

(** ** More of [str], and the built-ins [format_report] uses *)

(** The code points of a literal written in UTF-8. *)
Fixpoint utf8_decode (bs : list N) : str :=
  match bs with
  | [] => []
  | b :: bs1 =>
      if (b <? 128)%N then b :: utf8_decode bs1
      else
        match bs1 with
        | [] => [b]
        | c :: bs2 =>
            if (b <? 224)%N then
              ((b - 192) * 64 + (c - 128))%N :: utf8_decode bs2
            else
              match bs2 with
              | [] => [b; c]
              | d :: bs3 =>
                  if (b <? 240)%N then
                    ((b - 224) * 4096 + (c - 128) * 64 + (d - 128))%N
                      :: utf8_decode bs3
                  else
                    match bs3 with
                    | [] => [b; c; d]
                    | e :: bs4 =>
                        ((b - 240) * 262144 + (c - 128) * 4096
                         + (d - 128) * 64 + (e - 128))%N :: utf8_decode bs4
                    end
              end
        end
  end.

Definition u (s : string) : str := utf8_decode (py s).

(** U+0022 QUOTATION MARK, U+0027 APOSTROPHE. *)
Definition QUOTE : char := 34%N.
Definition APOSTROPHE : char := 39%N.

(** [sep.join(l)] *)
Definition py_join (sep : str) (l : list str) : str :=
  match l with
  | [] => []
  | x :: l' => x ++ (l' ≫= λ y, sep ++ y)
  end.

(** [str(n)] for an [int]: decimal digits, a minus sign when negative. *)
Definition str_of_int (n : Z) : str :=
  py (NilZero.string_of_int (Z.to_int n)).

Fixpoint drop_while {A} (p : A → bool) (l : list A) : list A :=
  match l with
  | [] => []
  | x :: l' => if p x then drop_while p l' else l
  end.

(** [s.strip(chars)] with the characters to remove given as a test. *)
Definition strip_with (p : char → bool) (s : str) : str :=
  drop_while p (reverse (drop_while p (reverse s))).

(** [s.strip(c)] for a one-character [c]. *)
Definition strip_char (c : char) (s : str) : str := strip_with (N.eqb c) s.

(** [a < b] on sequences: by the first place where they differ, a proper
    prefix coming first. *)
Fixpoint seq_lt {A} `{EqDecision A} (lt : A → A → bool) (l1 l2 : list A)
    : bool :=
  match l1, l2 with
  | _, [] => false
  | [], _ :: _ => true
  | x :: l1', y :: l2' =>
      if bool_decide (x = y) then seq_lt lt l1' l2' else lt x y
  end.

(** [a < b] on pairs. *)
Definition pair_lt {A B} `{EqDecision A} (lt1 : A → A → bool)
    (lt2 : B → B → bool) (a b : A * B) : bool :=
  if bool_decide (a.1 = b.1) then lt2 a.2 b.2 else lt1 a.1 b.1.

(** [<] on [str], on (position, context) pairs, and on the items of the
    cross-reference map. *)
Definition str_lt : str → str → bool := seq_lt N.ltb.
Definition location_lt : Z * str → Z * str → bool := pair_lt Z.ltb str_lt.
Definition item_lt : str * list (Z * str) → str * list (Z * str) → bool :=
  pair_lt str_lt (seq_lt location_lt).

(** One step of a stable sort: [x] goes before the first element it is
    less than. *)
Fixpoint insert_sorted {A} (lt : A → A → bool) (x : A) (l : list A) : list A :=
  match l with
  | [] => [x]
  | y :: l' => if lt x y then x :: l else y :: insert_sorted lt x l'
  end.

(** [sorted(l)]: a stable sort that compares with [<] only. *)
Definition sorted {A} (lt : A → A → bool) (l : list A) : list A :=
  foldl (λ acc x, insert_sorted lt x acc) [] l.

(** ** The report *)

(** U+2022 BULLET *)
Definition BULLET : char := 8226%N.

(** ["=" * n] *)
Definition rule (n : nat) : str := replicate n (ch "=").

Definition type_line (entry : string * Z) : str :=
  py "  " ++ py entry.1 ++ py ": " ++ str_of_int entry.2.

Definition citation_line (citation : str) : str :=
  py "  " ++ BULLET :: SP :: citation.

Definition position_line (loc : Z * str) : str :=
  py "  Position " ++ str_of_int loc.1 ++ py ": ..." ++ loc.2 ++ py "...".

(** The list [report] of [format_report], before it is joined. *)
Definition report_lines (analysis : analysis) : list str :=
  let report :=
    [rule 60; py "STATUTE CROSS-REFERENCE ANALYSIS"; rule 60;
     LF :: py "Total References Found: "
       ++ str_of_int (total_references analysis);
     py "Unique Citations: " ++ str_of_int (unique_references analysis);
     LF :: py "References by Type:"] in
  let report :=
    foldl (λ report entry, report ++ [type_line entry])
      report (by_type analysis) in
  let report := report ++ [LF :: rule 60; py "UNIQUE CITATIONS"; rule 60] in
  let report :=
    foldl (λ report '(ref_type, citations),
             if bool_decide (citations ≠ ∅) then
               foldl (λ report citation, report ++ [citation_line citation])
                 (report ++ [LF :: py ref_type ++ py ":"])
                 (sorted str_lt (elements (citations : gset (list N))))
             else report)
      report (unique_citations analysis) in
  let report := report ++ [LF :: rule 60; py "CROSS-REFERENCE MAP"; rule 60] in
  foldl (λ report '(citation, locations),
           foldl (λ report loc, report ++ [position_line loc])
             (report ++ [LF :: citation ++ py " (appears "
                           ++ str_of_int (len locations) ++ py " time(s)):"])
             locations)
    report (sorted item_lt (cross_reference_map analysis)).

Definition format_report (analysis : analysis) : str :=
  py_join [LF] (report_lines analysis).

(** [s.startswith(prefix)] *)
Fixpoint starts_with (prefix s : str) : bool :=
  match prefix, s with
  | [], _ => true
  | _ :: _, [] => false
  | c :: prefix', d :: s' => (c =? d)%N && starts_with prefix' s'
  end.

(** A comparison that orders any two different values, one way only. *)
Definition strict_total {A} (lt : A → A → bool) : Prop :=
  (∀ a, lt a a = false) ∧
  (∀ a b c, lt a b = true → lt b c = true → lt a c = true) ∧
  (∀ a b, lt a b = false → lt b a = false → a = b).

(** The entries one family adds to the report, and those one key of the
    cross-reference map adds. *)
Definition citations_block (entry : string * gset (list N)) : list str :=
  if bool_decide (entry.2 ≠ ∅) then
    (LF :: py entry.1 ++ py ":")
      :: (citation_line <$> sorted str_lt (elements entry.2))
  else [].

Definition locations_block (item : str * list (Z * str)) : list str :=
  (LF :: item.1 ++ py " (appears " ++ str_of_int (len item.2)
      ++ py " time(s)):")
    :: (position_line <$> item.2).

(** ** Exceptions and the environment *)

(** An exception is known by the first [except] clause of the script that
    takes it (an instance of [FileNotFoundError], else an instance of
    [ValueError], else any other [Exception]) and by its [str(e)]. What is
    no [Exception] (a keyboard interrupt) is left out. *)
Inductive exn_class := FileNotFoundError | ValueError | OtherException.

Record exn := Exn { exn_class_of : exn_class; exn_str : str }.

(** What the program asks of the interpreter, the file system and the two
    optional libraries. Each operation returns a value or the exception it
    raises. *)
Record environment := Environment {
  PDF_AVAILABLE : bool;
  DOCX_AVAILABLE : bool;
  (* [Path(p).exists()], [Path(p).suffix], [str(Path(p))] *)
  path_exists : str → exn + bool;
  path_suffix : str → str;
  path_str : str → str;
  (* [s.lower()] *)
  str_lower : str → str;
  (* [f.read()] of [open(p, 'r', encoding='utf-8', errors='ignore')] *)
  read_text : str → exn + str;
  (* [page.extract_text()] for the pages of [PyPDF2.PdfReader(open(p, 'rb'))] *)
  pdf_page_texts : str → exn + list str;
  (* [paragraph.text] for the paragraphs of [Document(p)] *)
  docx_paragraph_texts : str → exn + list str;
  (* [f.write(content)] of [open(name, 'w', encoding='utf-8')] *)
  write_text : str → str → option exn
}.

(** ** Loading a document *)

Definition _load_txt (env : environment) (file_path : str) : exn + str :=
  read_text env file_path.

Definition _load_pdf (env : environment) (file_path : str) : exn + str :=
  if negb (PDF_AVAILABLE env) then
    inl (Exn ValueError
           (py "PyPDF2 is not installed. Install it with: pip install PyPDF2"))
  else
    match pdf_page_texts env file_path with
    | inl e => inl (Exn ValueError (py "Error reading PDF: " ++ exn_str e))
    | inr text => inr (py_join [LF] text)
    end.

Definition _load_docx (env : environment) (file_path : str) : exn + str :=
  if negb (DOCX_AVAILABLE env) then
    inl (Exn ValueError
           (py "python-docx is not installed. Install it with: pip install python-docx"))
  else
    match docx_paragraph_texts env file_path with
    | inl e => inl (Exn ValueError (py "Error reading DOCX: " ++ exn_str e))
    | inr text => inr (py_join [LF] text)
    end.

Definition load_document (env : environment) (file_path : str) : exn + str :=
  match path_exists env file_path with
  | inl e => inl e
  | inr false =>
      inl (Exn FileNotFoundError
             (py "File not found: " ++ path_str env file_path))
  | inr true =>
      let extension := str_lower env (path_suffix env file_path) in
      if decide (extension = py ".txt") then _load_txt env file_path
      else if decide (extension = py ".pdf") then _load_pdf env file_path
      else if bool_decide (extension ∈ [py ".docx"; py ".doc"]) then
        _load_docx env file_path
      else inl (Exn ValueError (py "Unsupported file format: " ++ extension))
  end.

Definition analyze_file (db : unicode_db) (env : environment) (self : finder)
    (file_path : str) : exn + analysis :=
  match load_document env file_path with
  | inl e => inl e
  | inr text => inr (analyze_document db self text)
  end.

(** ** The script *)

(** The console and the files the script writes: the lines still to be
    read, what has been written to the console, and the files opened for
    writing with the text given to each. *)
Record io := IO {
  stdin : list str;
  stdout : list str;
  writes : list (str * str)
}.

(** A step of the script: it changes the console and the files, and
    returns a value or raises. *)
Definition M (A : Type) : Type := io → io * (exn + A).

Definition m_ret {A} (x : A) : M A := λ w, (w, inr x).

Definition m_bind {A B} (c : M A) (k : A → M B) : M B :=
  λ w, match c w with
       | (w', inl e) => (w', inl e)
       | (w', inr x) => k x w'
       end.

Notation "x <~ c ;; k" := (m_bind c (λ x, k))
  (at level 100, c at next level, right associativity).
Notation "c ;;; k" := (m_bind c (λ _, k))
  (at level 100, right associativity).

Definition lift {A} (r : exn + A) : M A := λ w, (w, r).

(** [print(s)] *)
Definition print (s : str) : M unit :=
  λ w, (IO (stdin w) (stdout w ++ [s ++ [LF]]) (writes w), inr tt).

(** [input(prompt)]; at the end of the input it raises [EOFError]. *)
Definition input (prompt : str) : M str :=
  λ w, match stdin w with
       | [] => (IO [] (stdout w ++ [prompt]) (writes w),
                inl (Exn OtherException (py "EOF when reading a line")))
       | line :: rest =>
           (IO rest (stdout w ++ [prompt]) (writes w), inr line)
       end.

(** [with open(name, 'w', encoding='utf-8') as f: f.write(content)] *)
Definition write_file (env : environment) (name content : str) : M unit :=
  λ w, (IO (stdin w) (stdout w) (writes w ++ [(name, content)]),
        match write_text env name content with
        | Some e => inl e
        | None => inr tt
        end).

(** [try: body except ...: handler] *)
Definition try_except {A} (body : M A) (handler : exn → M A) : M A :=
  λ w, match body w with
       | (w', inl e) => handler e w'
       | (w', inr x) => (w', inr x)
       end.

(** [s.strip()] *)
Definition strip (db : unicode_db) (s : str) : str :=
  strip_with (isspace db) s.

(** The path as the script cleans it: surrounding blanks, then double
    quotes, then single quotes are removed. *)
Definition clean_path (db : unicode_db) (line : str) : str :=
  strip_char APOSTROPHE (strip_char QUOTE (strip db line)).

(** What the script prints before it asks for the path. *)
Definition banner (env : environment) : M unit :=
  print (rule 70) ;;;
  print (py "STATUTE CROSS-REFERENCE FINDER") ;;;
  print (rule 70) ;;;
  print (LF :: py "This program analyzes legal documents to find and catalog all") ;;;
  print (py "statute references, including:") ;;;
  print (u "  • U.S. Code (USC) citations") ;;;
  print (u "  • Code of Federal Regulations (CFR)") ;;;
  print (u "  • State code references") ;;;
  print (u "  • Public law references") ;;;
  print (u "  • Section references") ;;;
  print (LF :: py "The program will generate a comprehensive report showing:") ;;;
  print (u "  • Total number of references found") ;;;
  print (u "  • Unique citations by type") ;;;
  print (u "  • Cross-reference map with context") ;;;
  print (u "  • Detailed location information") ;;;
  print (LF :: rule 70) ;;;
  print (py "SYSTEM CHECK") ;;;
  print (rule 70) ;;;
  print (py "PDF support (.pdf): "
           ++ (if PDF_AVAILABLE env then u "✓ Available"
               else u "✗ Not available - install PyPDF2")) ;;;
  print (py "DOCX support (.docx): "
           ++ (if DOCX_AVAILABLE env then u "✓ Available"
               else u "✗ Not available - install python-docx")) ;;;
  print (u "TXT support (.txt): ✓ Available") ;;;
  print (LF :: rule 70).

(** The body of the [try] statement. *)
Definition process (db : unicode_db) (env : environment) (file_path : str)
    : M unit :=
  print (LF :: rule 70) ;;;
  print (py "PROCESSING DOCUMENT...") ;;;
  print (rule 70) ;;;
  print (py "File: " ++ file_path) ;;;
  analysis <~ lift (analyze_file db env StatuteCrossReferenceFinder file_path) ;;
  print (LF :: format_report analysis) ;;;
  print (LF :: rule 70) ;;;
  answer <~ input (LF :: py "Would you like to save this report to a file? (yes/no): ") ;;
  let save_option := str_lower env (strip db answer) in
  (if bool_decide (save_option ∈ [py "yes"; py "y"]) then
     name <~ input (py "Enter output filename (default: statute_analysis_report.txt): ") ;;
     let output_file := strip db name in
     let output_file :=
       if output_file is [] then py "statute_analysis_report.txt"
       else output_file in
     write_file env output_file (format_report analysis) ;;;
     print (LF :: u "✓ Report saved to: " ++ output_file)
   else m_ret tt) ;;;
  print (LF :: py "Analysis complete!").

(** The three [except] clauses, tried in the order of the source. *)
Definition report_error (file_path : str) (e : exn) : M unit :=
  match exn_class_of e with
  | FileNotFoundError =>
      print (LF :: u "✗ Error: File not found - '" ++ file_path ++ py "'") ;;;
      print (py "Please check the file path and try again.")
  | ValueError => print (LF :: u "✗ Error: " ++ exn_str e)
  | OtherException =>
      print (LF :: u "✗ Unexpected error: " ++ exn_str e) ;;;
      print (py "Please check your file and try again.")
  end.

(** How a run of the script ends. *)
Inductive outcome := Finished | SystemExit (code : Z) | Uncaught (e : exn).

(** The script run as a program ([__name__ == "__main__"]). *)
(** A document, a console and the files of a run, to instantiate the
    statements about the script. *)
Definition sample_env : environment :=
  Environment true false
    (λ _, inr true) (λ _, py ".TXT") (λ p, p)
    (λ s, if decide (s = py ".TXT") then py ".txt"
          else if decide (s = py "Y") then py "y" else s)
    (λ _, inr sample_text) (λ _, inr []) (λ _, inr [])
    (λ _ _, None).

Definition pdf_env : environment :=
  Environment false false
    (λ _, inr true) (λ _, py ".pdf") (λ p, p) (λ s, s)
    (λ _, inr []) (λ _, inr []) (λ _, inr [])
    (λ _ _, None).


Definition main (db : unicode_db) (env : environment) (w : io) : io * outcome :=
  match (banner env ;;;
         input (LF :: py "Enter the path to your document (.txt, .pdf, or .docx): ")) w
  with
  | (w1, inl e) => (w1, Uncaught e)
  | (w1, inr line) =>
      let file_path := clean_path db line in
      if file_path is [] then
        ((print (LF :: py "Error: No file path provided. Exiting.") w1).1,
         SystemExit 1)
      else
        match try_except (process db env file_path) (report_error file_path) w1
        with
        | (w2, inl e) => (w2, Uncaught e)
        | (w2, inr _) => (w2, Finished)
        end
  end.

(** The name of the file the report goes to: the answer to the last
    prompt without its surrounding blanks, or the default name. *)
Definition output_name (db : unicode_db) (name : str) : str :=
  if strip db name is [] then py "statute_analysis_report.txt"
  else strip db name.

(** A step that reads nothing, writes no file and does not raise. *)
Definition quiet {A} (c : M A) : Prop :=
  ∀ w, ∃ out x, c w = (IO (stdin w) (stdout w ++ out) (writes w), inr x).

(** * Facts about ordered dictionaries *)

Section DictFacts.
Context {K V : Type} `{EqDecision K}.
Implicit Types (k : K) (v : V) (d : list (K * V)).

Lemma dict_get_None k d : dict_get k d = None ↔ k ∉ keys d.
Proof.
  unfold keys. induction d as [|[k' v'] d IH]; simpl.
  - split; [intros _; apply not_elem_of_nil | done].
  - rewrite not_elem_of_cons. case_decide as Hk; [|rewrite IH]; split.
    + done.
    + by intros [? _].
    + by intros ?.
    + by intros [_ ?].
Qed.

Lemma dict_get_Some_elem k v d : dict_get k d = Some v → (k, v) ∈ d.
Proof.
  induction d as [|[k' v'] d IH]; simpl; [done|].
  case_decide; intros; simplify_eq; [left | right; auto].
Qed.

Lemma dict_get_elem k v d : NoDup (keys d) → (k, v) ∈ d → dict_get k d = Some v.
Proof.
  unfold keys. induction d as [|[k' v'] d IH]; simpl.
  - intros _ Hin. by apply elem_of_nil in Hin.
  - intros [Hk Hd]%NoDup_cons [Heq|Hin]%elem_of_cons.
    + simplify_eq. by rewrite decide_True.
    + rewrite decide_False; [auto|].
      intros ->. apply Hk. apply list_elem_of_fmap. by exists (k', v).
Qed.

Lemma dict_get_app k d1 d2 :
  dict_get k (d1 ++ d2) =
    match dict_get k d1 with Some v => Some v | None => dict_get k d2 end.
Proof.
  induction d1 as [|[k' v'] d1 IH]; simpl; [done|]. by case_decide.
Qed.

Lemma dict_get_set_eq k v d : dict_get k (dict_set k v d) = Some v.
Proof.
  induction d as [|[k' v'] d IH]; simpl.
  - by rewrite decide_True.
  - case_decide; simpl; [by rewrite decide_True | by rewrite decide_False].
Qed.

Lemma dict_get_set_ne k k' v d :
  k ≠ k' → dict_get k' (dict_set k v d) = dict_get k' d.
Proof.
  intros Hne. induction d as [|[k'' v''] d IH]; simpl.
  - by rewrite decide_False.
  - case_decide; simpl; subst.
    + by rewrite !decide_False.
    + by rewrite IH.
Qed.

Lemma dict_set_fresh k v d : k ∉ keys d → dict_set k v d = d ++ [(k, v)].
Proof.
  unfold keys. induction d as [|[k' v'] d IH]; simpl; [done|].
  intros [? ?]%not_elem_of_cons. rewrite decide_False; [|done]. by rewrite IH.
Qed.

Lemma dict_set_last k v v' d :
  k ∉ keys d → dict_set k v (d ++ [(k, v')]) = d ++ [(k, v)].
Proof.
  unfold keys. induction d as [|[k' v''] d IH]; simpl.
  - intros _. by rewrite decide_True.
  - intros [? ?]%not_elem_of_cons. rewrite decide_False; [|done]. by rewrite IH.
Qed.

Lemma keys_dict_set k v d :
  keys (dict_set k v d) = if decide (k ∈ keys d) then keys d else keys d ++ [k].
Proof.
  unfold keys. induction d as [|[k' v'] d IH]; cbn [dict_set fmap list_fmap].
  - case_decide as H0; [by apply elem_of_nil in H0 | done].
  - destruct (decide (k = k')) as [->|Hne]; cbn [fmap list_fmap fst].
    + destruct (decide (k' ∈ k' :: d.*1)) as [|Hn]; [done|].
      destruct Hn. left.
    + rewrite IH. destruct (decide (k ∈ d.*1)) as [Hin|Hnin].
      * destruct (decide (k ∈ k' :: d.*1)) as [|Hn]; [done|].
        destruct Hn. by right.
      * destruct (decide (k ∈ k' :: d.*1)) as [[?|?]%elem_of_cons|]; done.
Qed.

Lemma NoDup_keys_dict_set k v d :
  NoDup (keys d) → NoDup (keys (dict_set k v d)).
Proof.
  intros Hd. rewrite keys_dict_set. case_decide; [done|].
  apply NoDup_app. split_and!; [done | | apply NoDup_singleton].
  intros x Hx ->%list_elem_of_singleton. done.
Qed.
End DictFacts.

(** * Facts about [defaultdict(list)] *)

Section AppendFacts.
Context {K A : Type} `{EqDecision K}.
Implicit Types (k : K) (x : A) (l : list A) (d : list (K * list A)).

Lemma dd_append_get_eq k x d :
  dict_get k (dd_append k x d) = Some (default [] (dict_get k d) ++ [x]).
Proof. apply dict_get_set_eq. Qed.

Lemma dd_append_get_ne k k' x d :
  k ≠ k' → dict_get k' (dd_append k x d) = dict_get k' d.
Proof. apply dict_get_set_ne. Qed.

Lemma dd_append_fresh k x d : k ∉ keys d → dd_append k x d = d ++ [(k, [x])].
Proof.
  intros Hk. unfold dd_append.
  rewrite (proj2 (dict_get_None k d) Hk). by apply dict_set_fresh.
Qed.

Lemma dd_append_last k x l d :
  k ∉ keys d → dd_append k x (d ++ [(k, l)]) = d ++ [(k, l ++ [x])].
Proof.
  intros Hk. unfold dd_append.
  rewrite dict_get_app, (proj2 (dict_get_None k d) Hk). simpl.
  rewrite decide_True by done. by apply dict_set_last.
Qed.

(** Appending a whole run under one key that is not yet bound. *)
Lemma dd_append_run_last k l l0 d :
  k ∉ keys d →
  foldl (λ d x, dd_append k x d) (d ++ [(k, l0)]) l = d ++ [(k, l0 ++ l)].
Proof.
  intros Hk. revert l0. induction l as [|x l IH]; intros l0; simpl.
  - by rewrite app_nil_r.
  - rewrite dd_append_last by done. rewrite IH. by rewrite <-app_assoc.
Qed.

Lemma dd_append_run k l d :
  k ∉ keys d →
  foldl (λ d x, dd_append k x d) d l = if l is [] then d else d ++ [(k, l)].
Proof.
  intros Hk. destruct l as [|x l]; simpl; [done|].
  rewrite dd_append_fresh by done. by rewrite dd_append_run_last.
Qed.

(** Appending a sequence of (key, item) pairs. *)
Lemma dd_extend_keys_NoDup (kvs : list (K * A)) d :
  NoDup (keys d) →
  NoDup (keys (foldl (λ d kv, dd_append kv.1 kv.2 d) d kvs)).
Proof.
  revert d. induction kvs as [|[k x] kvs IH]; intros d Hd; simpl; [done|].
  apply IH. by apply NoDup_keys_dict_set.
Qed.

Lemma dd_extend_get (kvs : list (K * A)) k d :
  default [] (dict_get k (foldl (λ d kv, dd_append kv.1 kv.2 d) d kvs)) =
    default [] (dict_get k d) ++ (filter (λ kv, kv.1 = k) kvs).*2.
Proof.
  revert d. induction kvs as [|[k0 x] kvs IH]; intros d; simpl.
  - by rewrite app_nil_r.
  - rewrite IH. destruct (decide (k0 = k)) as [->|Hne].
    + rewrite dd_append_get_eq, filter_cons_True by done. simpl.
      by rewrite <-app_assoc.
    + rewrite dd_append_get_ne, filter_cons_False by done. done.
Qed.

Lemma dd_extend_keys (kvs : list (K * A)) k d :
  k ∈ keys (foldl (λ d kv, dd_append kv.1 kv.2 d) d kvs) ↔
    k ∈ keys d ∨ k ∈ kvs.*1.
Proof.
  revert d. induction kvs as [|[k0 x] kvs IH]; intros d; simpl.
  - rewrite elem_of_nil. tauto.
  - rewrite IH. unfold dd_append. rewrite keys_dict_set, elem_of_cons.
    case_decide as Hk0; [|rewrite elem_of_app, list_elem_of_singleton].
    + split; [tauto|]. intros [?|[->|?]]; tauto.
    + tauto.
Qed.

(** What a key is bound to after the appends, starting from nothing. *)
Lemma dd_extend_lookup (kvs : list (K * A)) k locs :
  dict_get k (foldl (λ d kv, dd_append kv.1 kv.2 d) [] kvs) = Some locs →
  locs = (filter (λ kv, kv.1 = k) kvs).*2.
Proof.
  intros Hget. pose proof (dd_extend_get kvs k []) as Heq.
  rewrite Hget in Heq. done.
Qed.

Lemma dd_extend_bound (kvs : list (K * A)) k :
  k ∈ kvs.*1 →
  is_Some (dict_get k (foldl (λ d kv, dd_append kv.1 kv.2 d) [] kvs)).
Proof.
  intros Hk. apply not_eq_None_Some. rewrite dict_get_None.
  rewrite dd_extend_keys. tauto.
Qed.
End AppendFacts.


(** * Facts about the matcher *)

Section MatcherFacts.
Context (db : unicode_db) (text : str).
Implicit Types (st : mstate) (r : regex).

(** A step never moves backwards and never leaves the text. *)
Local Abbreviation forward st st' :=
  (pos st ≤ pos st' ∧ (pos st ≤ length text → pos st' ≤ length text)).

Lemma one_elem p st st' :
  st' ∈ one text p st →
  pos st' = S (pos st) ∧ pos st < length text ∧ marks st' = marks st.
Proof.
  unfold one. destruct (text !! pos st) as [c|] eqn:Hc; [|by intros ?%elem_of_nil].
  destruct (p c); [|by intros ?%elem_of_nil].
  intros ->%list_elem_of_singleton. simpl.
  split_and!; [done | by eapply lookup_lt_Some | done].
Qed.

Lemma loop_forward f n st st' :
  (∀ a b, b ∈ f a → forward a b) → st' ∈ loop f n st → forward st st'.
Proof.
  intros Hf. revert st. induction n as [|n IH]; intros st; simpl.
  - intros ->%list_elem_of_singleton. lia.
  - rewrite elem_of_app, list_elem_of_bind, list_elem_of_singleton.
    intros [(y & Hy & [_ Hin]%list_elem_of_filter)| ->]; [|lia].
    apply IH in Hy. apply Hf in Hin. lia.
Qed.

Lemma m_forward r st st' : st' ∈ m db text r st → forward st st'.
Proof.
  revert st st'.
  induction r as [|p|items| | | |r1 IH1 r2 IH2|r1 IH1 r2 IH2|r1 IH1|r1 IH1|r1 IH1|n r1 IH1];
    intros st st'; simpl.
  - intros ->%list_elem_of_singleton. lia.
  - intros (? & ? & _)%one_elem. lia.
  - intros (? & ? & _)%one_elem. lia.
  - intros (? & ? & _)%one_elem. lia.
  - intros (? & ? & _)%one_elem. lia.
  - destruct (at_boundary db text (pos st)); [|by intros ?%elem_of_nil].
    intros ->%list_elem_of_singleton. lia.
  - intros (y & Hy%IH2 & Hin%IH1)%list_elem_of_bind. lia.
  - intros [?%IH1|?%IH2]%elem_of_app; lia.
  - intros [?%IH1| ->%list_elem_of_singleton]%elem_of_app; lia.
  - intros Hin. by apply (loop_forward _ _ _ _ IH1) in Hin.
  - intros (y & Hy & Hin%IH1)%list_elem_of_bind.
    apply (loop_forward _ _ _ _ IH1) in Hy. lia.
  - intros (y & -> & Hy%IH1)%list_elem_of_fmap. simpl. lia.
Qed.

Lemma m_consumes r st st' :
  consumes r = true → st' ∈ m db text r st → pos st < pos st'.
Proof.
  revert st st'.
  induction r as [|p|items| | | |r1 IH1 r2 IH2|r1 IH1 r2 IH2|r1 IH1|r1 IH1|r1 IH1|n r1 IH1];
    intros st st'; simpl; try done.
  - intros _ (? & ? & _)%one_elem. lia.
  - intros _ (? & ? & _)%one_elem. lia.
  - intros _ (? & ? & _)%one_elem. lia.
  - intros _ (? & ? & _)%one_elem. lia.
  - intros [Hc|Hc]%orb_true_iff (y & Hy & Hin)%list_elem_of_bind.
    + apply (IH1 _ _ Hc) in Hin. apply m_forward in Hy. lia.
    + apply (IH2 _ _ Hc) in Hy. apply m_forward in Hin. lia.
  - intros [Hc1 Hc2]%andb_true_iff [?|?]%elem_of_app; eauto.
  - intros Hc (y & Hy & Hin)%list_elem_of_bind.
    apply (IH1 _ _ Hc) in Hin.
    apply (loop_forward _ _ _ _ (m_forward r1)) in Hy. lia.
  - intros Hc (y & -> & Hy)%list_elem_of_fmap. simpl. eauto.
Qed.

Lemma bind_ext_elem {A B} (f g : A → list B) (l : list A) :
  (∀ x, x ∈ l → f x = g x) → l ≫= f = l ≫= g.
Proof.
  induction l as [|x l IH]; intros Hfg; [done|]. rewrite !bind_cons.
  rewrite (Hfg x) by left. rewrite IH; [done|].
  intros y Hy. apply Hfg. by right.
Qed.

(** The fuel [star] gives its loop is never used up: more fuel changes
    nothing. *)
Lemma loop_fuel f n k st :
  (∀ a b, b ∈ f a → forward a b) →
  pos st ≤ length text → length text - pos st < n →
  loop f (n + k) st = loop f n st.
Proof.
  intros Hf. revert st. induction n as [|n IH]; intros st Hst Hn; [lia|].
  cbn [Nat.add loop]. f_equal. apply bind_ext_elem.
  intros y [Hlt Hy%Hf]%list_elem_of_filter. apply IH; lia.
Qed.

Lemma star_fuel f k st :
  (∀ a b, b ∈ f a → forward a b) → pos st ≤ length text →
  loop f (S (length text - pos st) + k) st = star text f st.
Proof. intros Hf Hst. unfold star. apply loop_fuel; [done | done | lia]. Qed.

Lemma match_at_advances r s st :
  match_at db text r s true = Some st → pos st ≠ s.
Proof.
  unfold match_at. intros [_ Hp]%find_some. simpl in Hp.
  apply negb_true_iff, Nat.eqb_neq in Hp. done.
Qed.

(** In a loop over a body that always takes a character, the progress
    test of [loop] discards nothing. *)
Lemma loop_progress_id r st :
  consumes r = true →
  filter (λ st', pos st < pos st') (m db text r st) = m db text r st.
Proof.
  intros Hc.
  assert (Forall (λ st', pos st < pos st') (m db text r st)) as Hall.
  { apply Forall_forall. intros st' Hin. by eapply m_consumes. }
  induction Hall as [|x l Hx Hall IH]; [done|].
  rewrite filter_cons_True by done. by rewrite IH.
Qed.

Lemma match_at_Some r s adv st :
  match_at db text r s adv = Some st →
  s ≤ pos st ∧ (s ≤ length text → pos st ≤ length text) ∧
  (consumes r = true → s < pos st).
Proof.
  unfold match_at. intros [Hin _]%find_some. apply list_elem_of_In in Hin.
  pose proof (m_forward _ _ _ Hin) as Hf. simpl in Hf.
  split_and!; [lia | lia |]. intros Hc. by apply (m_consumes _ _ _ Hc) in Hin.
Qed.

Lemma search_Some r n s adv s' st :
  search db text r n s adv = Some (s', st) →
  s ≤ s' ≤ s + n ∧ match_at db text r s' (adv && (s' =? s)) = Some st.
Proof.
  revert s adv. induction n as [|n IH]; intros s adv; simpl.
  - destruct (match_at db text r s adv) eqn:Hm; [|done].
    intros [= <- <-]. rewrite Nat.eqb_refl, andb_true_r. split; [lia | done].
  - destruct (match_at db text r s adv) eqn:Hm.
    + intros [= <- <-]. rewrite Nat.eqb_refl, andb_true_r. split; [lia | done].
    + intros [Hle Hm']%IH. split; [lia|].
      rewrite andb_false_l in Hm'. rewrite <-Hm'.
      replace (s' =? s) with false; [by rewrite andb_false_r|].
      symmetry. apply Nat.eqb_neq. lia.
Qed.
End MatcherFacts.


(** * Facts about [finditer] *)

Section FinditerFacts.
Context (db : unicode_db).
Implicit Types (r : regex) (text : str) (mo : match_obj).

Lemma scan_bounds r text fuel s adv :
  s ≤ length text →
  Forall (λ mo, m_string mo = text ∧
                s ≤ m_start mo ∧ m_start mo ≤ m_end mo ≤ length text ∧
                (consumes r = true → m_start mo < m_end mo))
    (scan db r text fuel s adv).
Proof.
  revert s adv. induction fuel as [|fuel IH]; intros s adv Hs; simpl; [done|].
  destruct (search db text r (length text - s) s adv) as [[s' st]|] eqn:Hsearch;
    [|done].
  apply search_Some in Hsearch as [Hs' Hm].
  apply match_at_Some in Hm as (Hle & Hlen & Hc).
  constructor; simpl.
  - split_and!; [done | lia | lia | lia | done].
  - eapply Forall_impl; [apply IH; lia|]. simpl. intros mo (? & ? & ? & ?).
    split_and!; [done | lia | lia | lia | done].
Qed.

(** The matches of one scan follow each other without overlap. *)
Lemma scan_disjoint r text fuel s adv :
  s ≤ length text →
  StronglySorted (λ a b, m_end a ≤ m_start b) (scan db r text fuel s adv).
Proof.
  revert s adv. induction fuel as [|fuel IH]; intros s adv Hs; simpl;
    [constructor|].
  destruct (search db text r (length text - s) s adv) as [[s' st]|] eqn:Hsearch;
    [|constructor].
  apply search_Some in Hsearch as [Hs' Hm].
  apply match_at_Some in Hm as (Hle & Hlen & Hc).
  assert (pos st ≤ length text) as Hpos by lia.
  constructor; [by apply IH|].
  eapply Forall_impl; [by apply scan_bounds|]. simpl. intros mo (? & ? & ?). done.
Qed.

(** The fuel [finditer] gives the scan is never used up. *)
Lemma scan_fuel r text n k s (adv : bool) :
  s ≤ length text →
  2 * (length text - s) + (if adv then 0 else 1) < n →
  scan db r text (n + k) s adv = scan db r text n s adv.
Proof.
  revert s adv. induction n as [|n IH]; intros s adv Hs Hn; [lia|].
  cbn [Nat.add scan].
  destruct (search db text r (length text - s) s adv) as [[s' st]|] eqn:Hsearch;
    [|done].
  f_equal. apply search_Some in Hsearch as [Hs' Hm].
  pose proof (match_at_Some _ _ _ _ _ _ Hm) as (Hle & Hlen & _).
  apply IH; [lia|].
  destruct (Nat.eqb_spec (pos st) s') as [Heq|Hne]; [|lia].
  destruct adv; [|lia].
  destruct (Nat.eqb_spec s' s) as [->|Hne]; [|lia].
  apply match_at_advances in Hm. lia.
Qed.

Lemma finditer_fuel r text k :
  scan db r text (2 * length text + 2 + k) 0 false = finditer db r text.
Proof. unfold finditer. apply scan_fuel; lia. Qed.

Lemma finditer_bounds r text :
  Forall (λ mo, m_string mo = text ∧ m_start mo ≤ m_end mo ≤ length text ∧
                (consumes r = true → m_start mo < m_end mo))
    (finditer db r text).
Proof.
  eapply Forall_impl; [apply scan_bounds; lia|]. simpl. tauto.
Qed.

Lemma finditer_disjoint r text :
  StronglySorted (λ a b, m_end a ≤ m_start b) (finditer db r text).
Proof. apply scan_disjoint. lia. Qed.

(** With a pattern that cannot match the empty string, the starts of the
    matches strictly increase. *)
Lemma finditer_ascending r text :
  consumes r = true →
  StronglySorted (λ a b, m_start a < m_start b) (finditer db r text).
Proof.
  intros Hc. pose proof (finditer_bounds r text) as Hb.
  pose proof (finditer_disjoint r text) as Hd.
  induction Hd as [|mo l Hd IH Hall]; [constructor|].
  apply Forall_cons in Hb as [(_ & _ & Hlt) Hb].
  constructor; [by apply IH|].
  eapply Forall_impl; [exact Hall|]. simpl. intros b ?. specialize (Hlt Hc). lia.
Qed.
End FinditerFacts.

(** * Facts about dictionaries built in one pass *)

Section BuildFacts.
Context {K V W : Type} `{EqDecision K}.

Lemma NoDup_keys_snoc {A} (d : list (K * A)) (k : K) (x : A) (l : list K) :
  NoDup (keys d ++ k :: l) → (k ∉ keys d) ∧ NoDup (keys (d ++ [(k, x)]) ++ l).
Proof.
  intros Hnd. split.
  - apply NoDup_app in Hnd as (_ & Hdisj & _). intros Hin.
    apply (Hdisj _ Hin). left.
  - unfold keys in *. rewrite fmap_app, <-app_assoc. done.
Qed.

(** Binding new keys one after the other lists them in that order. *)
Lemma dict_build (h : V → W) (f : list (K * W) → K * V → list (K * W))
    (gs : list (K * V)) (d0 : list (K * W)) :
  (∀ d k v, f d (k, v) = dict_set k (h v) d) →
  NoDup (keys d0 ++ keys gs) →
  foldl f d0 gs = d0 ++ ((λ g, (g.1, h g.2)) <$> gs).
Proof.
  intros Hf. revert d0. induction gs as [|[k v] gs IH]; intros d0 Hnd; simpl.
  - by rewrite app_nil_r.
  - destruct (NoDup_keys_snoc d0 k (h v) (keys gs) Hnd) as [Hk Hnd2].
    rewrite Hf, dict_set_fresh by done. rewrite IH by done.
    by rewrite <-app_assoc.
Qed.
End BuildFacts.

(** * Facts about the finder *)

Section FinderFacts.
Context (db : unicode_db).
Implicit Types (self : finder) (text : str).

Lemma find_references_from (ps : list (string * regex)) text
    (d : list (string * list ref_data)) :
  NoDup (keys d ++ keys ps) →
  foldl (λ results '(ref_type, pattern),
           foldl (λ results mo, dd_append ref_type (ref_of mo) results)
             results (finditer db pattern text)) d ps =
    d ++ filter (λ g, g.2 ≠ [])
           ((λ fp, (fp.1, family_matches db fp.2 text)) <$> ps).
Proof.
  revert d. induction ps as [|[f p] ps IH]; intros d Hnd.
  - simpl. by rewrite app_nil_r.
  - assert (NoDup (keys d ++ f :: keys ps)) as Hnd' by exact Hnd. clear Hnd.
    cbn [foldl fmap list_fmap fst snd].
    rewrite <-(foldl_fmap (λ d x, dd_append f x d) d (finditer db p text) ref_of).
    fold (family_matches db p text).
    destruct (family_matches db p text) as [|x l] eqn:Hfam.
    + change (foldl (λ d0 x, dd_append f x d0) d []) with d.
      rewrite filter_cons_False by (simpl; intros Hn; by apply Hn).
      apply IH. apply NoDup_app in Hnd' as (Hd & Hdisj & [Hf Hps]%NoDup_cons).
      apply NoDup_app. split_and!; [done | | done].
      intros y Hy Hy'. apply (Hdisj y Hy). by right.
    + destruct (NoDup_keys_snoc d f (x :: l) (keys ps) Hnd') as [Hk Hnd2].
      rewrite dd_append_run by done. rewrite filter_cons_True by done.
      rewrite IH by done. by rewrite <-app_assoc.
Qed.

(** The scanner's result lists, in pattern order, the families that
    matched, each with its matches from left to right. *)
Lemma find_references_eq self text :
  NoDup (keys (patterns self)) →
  find_references db self text = matched_families db self text.
Proof. intros Hnd. apply (find_references_from _ _ []). done. Qed.

(** The lists the scanner returns, one after the other, are all the raw
    matches in processing order. *)
Lemma find_references_values self text :
  NoDup (keys (patterns self)) →
  mjoin (values (find_references db self text)) = raw_matches db self text.
Proof.
  intros Hnd. rewrite find_references_eq by done.
  unfold matched_families, raw_matches, values. clear Hnd.
  induction (patterns self) as [|[f p] ps IH]; [done|].
  rewrite fmap_cons, bind_cons. cbn [fst snd].
  destruct (decide (family_matches db p text = [])) as [Hnil|Hne].
  - rewrite filter_cons_False by (simpl; intros Hn; by apply Hn).
    rewrite Hnil. exact IH.
  - rewrite filter_cons_True by done. rewrite fmap_cons. cbn [mjoin list_join snd].
    f_equal. exact IH.
Qed.

Lemma matched_families_keys_NoDup self text :
  NoDup (keys (patterns self)) → NoDup (keys (matched_families db self text)).
Proof.
  intros Hnd. unfold matched_families, keys.
  eapply sublist_NoDup; [exact Hnd|].
  assert (((λ fp, (fp.1, family_matches db fp.2 text)) <$> patterns self).*1
          = (patterns self).*1) as Heq
    by (by rewrite <-list_fmap_compose).
  unfold keys. rewrite <-Heq. apply fmap_sublist, sublist_filter.
Qed.
End FinderFacts.

(** * Facts about match records *)

Section RefFacts.
Context (db : unicode_db).
Implicit Types (self : finder) (text : str) (r : ref_data).

Lemma slice_index_id n i : (0 ≤ i ≤ n)%Z → slice_index n i = i.
Proof. unfold slice_index. intros ?. destruct (Z.ltb_spec i 0); lia. Qed.

Lemma py_slice_substr text (i j : nat) :
  i ≤ j ≤ length text →
  py_slice text (Z.of_nat i) (Z.of_nat j) = substr text i j.
Proof.
  intros Hij. unfold py_slice, substr, len.
  rewrite !slice_index_id by lia.
  rewrite <-Nat2Z.inj_sub by lia. by rewrite !Nat2Z.id.
Qed.

Lemma length_substr text (i j : nat) :
  i ≤ j ≤ length text → length (substr text i j) = j - i.
Proof. intros ?. unfold substr. rewrite length_take, length_drop. lia. Qed.

(** What the scanner records for a match object of the text. *)
Lemma ref_of_spec text mo :
  m_string mo = text → m_start mo ≤ m_end mo ≤ length text →
  (0 ≤ (position (ref_of mo)).1 ≤ (position (ref_of mo)).2)%Z ∧
  ((position (ref_of mo)).2 ≤ len text)%Z ∧
  full_text (ref_of mo) =
    py_slice text (position (ref_of mo)).1 (position (ref_of mo)).2 ∧
  len (full_text (ref_of mo)) =
    ((position (ref_of mo)).2 - (position (ref_of mo)).1)%Z.
Proof.
  intros Hs Hb. unfold ref_of, span, group0, len. simpl. rewrite Hs.
  rewrite py_slice_substr, length_substr by done. split_and!; try done; lia.
Qed.

Lemma family_matches_spec p text r :
  r ∈ family_matches db p text →
  (0 ≤ (position r).1 ≤ (position r).2)%Z ∧
  ((position r).2 ≤ len text)%Z ∧
  full_text r = py_slice text (position r).1 (position r).2 ∧
  len (full_text r) = ((position r).2 - (position r).1)%Z.
Proof.
  unfold family_matches. intros (mo & -> & Hmo)%list_elem_of_fmap.
  pose proof (finditer_bounds db p text) as Hall.
  rewrite Forall_forall in Hall. destruct (Hall _ Hmo) as (Hs & Hb & _).
  by apply ref_of_spec.
Qed.

Lemma raw_matches_elem self text r :
  r ∈ raw_matches db self text ↔
  ∃ f p, (f, p) ∈ patterns self ∧ r ∈ family_matches db p text.
Proof.
  unfold raw_matches. rewrite list_elem_of_bind. split.
  - intros ([f p] & Hr & Hin). by exists f, p.
  - intros (f & p & Hin & Hr). by exists (f, p).
Qed.

Lemma raw_matches_spec self text r :
  r ∈ raw_matches db self text →
  (0 ≤ (position r).1 ≤ (position r).2)%Z ∧
  ((position r).2 ≤ len text)%Z ∧
  full_text r = py_slice text (position r).1 (position r).2 ∧
  len (full_text r) = ((position r).2 - (position r).1)%Z.
Proof.
  intros (f & p & _ & Hr)%raw_matches_elem. by eapply family_matches_spec.
Qed.

Lemma matched_families_elem self text f refs :
  (f, refs) ∈ matched_families db self text ↔
  refs ≠ [] ∧ ∃ p, (f, p) ∈ patterns self ∧ refs = family_matches db p text.
Proof.
  unfold matched_families. rewrite list_elem_of_filter, list_elem_of_fmap.
  simpl. split.
  - intros (Hne & [f' p] & [= -> ->] & Hin). split; [done|]. by exists p.
  - intros (Hne & p & Hin & ->). split; [done|]. by exists (f, p).
Qed.
End RefFacts.

(** * Facts about the cross-reference map *)

Section XrefFacts.
Context (db : unicode_db).
Implicit Types (self : finder) (text : str) (r : ref_data) (k : str).

Lemma filter_key_locations text k (refs : list ref_data) :
  (filter (λ kv, kv.1 = k)
     ((λ r, (full_text r, location text r)) <$> refs)).*2 =
    location text <$> filter (λ r, full_text r = k) refs.
Proof.
  induction refs as [|r refs IH]; [done|]. rewrite fmap_cons.
  destruct (decide (full_text r = k)) as [Hk|Hk].
  - rewrite !filter_cons_True by done. rewrite !fmap_cons. by rewrite IH.
  - rewrite !filter_cons_False by done. done.
Qed.

Lemma xref_from (ps : list (string * regex)) text
    (d : list (str * list (Z * str))) :
  foldl (λ xref_map '(ref_type, ref_list),
           foldl (add_location text) xref_map ref_list) d
    (filter (λ g, g.2 ≠ [])
       ((λ fp, (fp.1, family_matches db fp.2 text)) <$> ps)) =
  foldl (λ d kv, dd_append kv.1 kv.2 d) d
    ((λ r, (full_text r, location text r)) <$>
       (ps ≫= λ fp, family_matches db fp.2 text)).
Proof.
  revert d. induction ps as [|[f p] ps IH]; intros d; [done|].
  rewrite fmap_cons, bind_cons, fmap_app, foldl_app. cbn [fst snd].
  assert (foldl (add_location text) d (family_matches db p text) =
          foldl (λ d kv, dd_append kv.1 kv.2 d) d
            ((λ r, (full_text r, location text r)) <$> family_matches db p text))
    as Hrun by (by rewrite foldl_fmap).
  destruct (decide (family_matches db p text = [])) as [Hnil|Hne].
  - rewrite filter_cons_False by (simpl; intros Hn; by apply Hn).
    rewrite Hnil. apply IH.
  - rewrite filter_cons_True by done. cbn [foldl]. rewrite Hrun. apply IH.
Qed.

(** The map is what appending every raw match, in processing order, to
    the entry of its surface text builds. *)
Lemma create_cross_reference_map_eq self text :
  NoDup (keys (patterns self)) →
  create_cross_reference_map db self text =
    foldl (λ d kv, dd_append kv.1 kv.2 d) []
      ((λ r, (full_text r, location text r)) <$> raw_matches db self text).
Proof.
  intros Hnd. unfold create_cross_reference_map.
  rewrite find_references_eq by done. apply xref_from.
Qed.

Lemma xref_keys_NoDup self text :
  NoDup (keys (patterns self)) →
  NoDup (keys (create_cross_reference_map db self text)).
Proof.
  intros Hnd. rewrite create_cross_reference_map_eq by done.
  apply dd_extend_keys_NoDup. constructor.
Qed.

Lemma xref_keys self text k :
  NoDup (keys (patterns self)) →
  k ∈ keys (create_cross_reference_map db self text) ↔
  k ∈ full_text <$> raw_matches db self text.
Proof.
  intros Hnd. rewrite create_cross_reference_map_eq by done.
  rewrite dd_extend_keys, <-list_fmap_compose.
  split; [intros [[]%elem_of_nil|?]; done | by right].
Qed.

Lemma xref_lookup self text k locs :
  NoDup (keys (patterns self)) →
  dict_get k (create_cross_reference_map db self text) = Some locs →
  locs = location text <$>
           filter (λ r, full_text r = k) (raw_matches db self text).
Proof.
  intros Hnd. rewrite create_cross_reference_map_eq by done.
  intros ->%dd_extend_lookup. apply filter_key_locations.
Qed.
End XrefFacts.

(** * Facts about the aggregation *)

Section AnalysisFacts.
Context (db : unicode_db).
Implicit Types (self : finder) (text : str).

Lemma foldl_add (a : Z) (l : list Z) : foldl Z.add a l = (a + py_sum l)%Z.
Proof.
  unfold py_sum. revert a. induction l as [|x l IH]; intros a; simpl; [lia|].
  rewrite (IH (a + x)%Z), (IH (0 + x)%Z). lia.
Qed.

Lemma py_sum_cons (x : Z) (l : list Z) : py_sum (x :: l) = (x + py_sum l)%Z.
Proof. unfold py_sum at 1. simpl. by rewrite foldl_add. Qed.

Lemma py_sum_le {A} (u t : A → Z) (l : list A) :
  (∀ x, x ∈ l → (u x ≤ t x)%Z) → (py_sum (u <$> l) ≤ py_sum (t <$> l))%Z.
Proof.
  induction l as [|x l IH]; intros Hle; [done|].
  rewrite !fmap_cons, !py_sum_cons.
  pose proof (Hle x (list_elem_of_here _ _)).
  assert (py_sum (u <$> l) ≤ py_sum (t <$> l))%Z; [|lia].
  apply IH. intros y Hy. apply Hle. by right.
Qed.

(** Families without a match add nothing to a sum over the families. *)
Lemma py_sum_matched {A} (h : list A → Z) (gs : list (string * list A)) :
  h [] = 0%Z →
  py_sum (h <$> values (filter (λ g, g.2 ≠ []) gs)) = py_sum (h <$> values gs).
Proof.
  intros Hnil. unfold values. induction gs as [|[f l] gs IH]; [done|].
  destruct (decide (l = [])) as [->|Hne].
  - rewrite filter_cons_False by (simpl; intros Hn; by apply Hn).
    rewrite !fmap_cons, py_sum_cons. simpl. rewrite Hnil, IH. lia.
  - rewrite filter_cons_True by done.
    rewrite !fmap_cons, !py_sum_cons. by rewrite IH.
Qed.

Lemma size_list_to_set_le (l : list (list N)) :
  size (list_to_set l : gset (list N)) ≤ length l.
Proof.
  induction l as [|x l IH]; cbn [length].
  - rewrite list_to_set_nil, size_empty. lia.
  - rewrite list_to_set_cons, size_union_alt, size_singleton.
    assert (size (list_to_set l ∖ {[x]} : gset (list N))
            ≤ size (list_to_set l : gset (list N))); [|lia].
    apply subseteq_size, subseteq_difference_l. done.
Qed.

Lemma get_unique_references_eq self text :
  NoDup (keys (patterns self)) →
  get_unique_references db self text =
    (λ g, (g.1, list_to_set (full_text <$> g.2) : gset (list N))) <$>
      matched_families db self text.
Proof.
  intros Hnd. unfold get_unique_references.
  rewrite find_references_eq by done.
  apply (dict_build (λ l : list ref_data,
           list_to_set (full_text <$> l) : gset (list N)) _ _ []).
  - done.
  - by apply matched_families_keys_NoDup.
Qed.

Lemma by_type_eq self text :
  NoDup (keys (patterns self)) →
  by_type (analyze_document db self text) =
    (λ g, (g.1, len g.2)) <$> matched_families db self text.
Proof.
  intros Hnd. unfold analyze_document. simpl.
  rewrite find_references_eq by done.
  apply (dict_build (λ l : list ref_data, len l) _ _ []).
  - done.
  - by apply matched_families_keys_NoDup.
Qed.

Lemma values_families self text :
  values ((λ fp, (fp.1, family_matches db fp.2 text)) <$> patterns self) =
    (λ fp, family_matches db fp.2 text) <$> patterns self.
Proof. unfold values. by rewrite <-list_fmap_compose. Qed.

Lemma total_references_eq self text :
  NoDup (keys (patterns self)) →
  total_references (analyze_document db self text) =
    py_sum ((λ fp, len (family_matches db fp.2 text)) <$> patterns self).
Proof.
  intros Hnd. unfold analyze_document. simpl.
  rewrite find_references_eq by done. unfold matched_families.
  rewrite (py_sum_matched len) by done.
  by rewrite values_families, <-list_fmap_compose.
Qed.

Lemma unique_references_eq self text :
  NoDup (keys (patterns self)) →
  unique_references (analyze_document db self text) =
    py_sum ((λ fp, Z.of_nat (size (list_to_set
               (full_text <$> family_matches db fp.2 text) : gset (list N))))
            <$> patterns self).
Proof.
  intros Hnd. unfold analyze_document. simpl.
  rewrite get_unique_references_eq by done. unfold matched_families.
  assert (∀ gs : list (string * list ref_data),
    values ((λ g, (g.1, list_to_set (full_text <$> g.2) : gset (list N))) <$> gs)
    = (λ l, list_to_set (full_text <$> l) : gset (list N)) <$> values gs) as Hv.
  { intros gs. unfold values. by rewrite <-!list_fmap_compose. }
  rewrite Hv, <-list_fmap_compose.
  rewrite (py_sum_matched
    ((λ refs : gset (list N), Z.of_nat (size refs))
       ∘ (λ l : list ref_data, list_to_set (full_text <$> l))))
    by (unfold compose; by rewrite fmap_nil, list_to_set_nil, size_empty).
  by rewrite values_families, <-list_fmap_compose.
Qed.
End AnalysisFacts.


(** * The shipped pattern dictionary *)

Lemma finder_keys_NoDup : NoDup (keys (patterns StatuteCrossReferenceFinder)).
Proof. apply (bool_decide_unpack _). by vm_compute. Qed.

Lemma finder_loops_consume :
  Forall (λ fp, loops_consume fp.2 = true)
    (patterns StatuteCrossReferenceFinder).
Proof. repeat constructor. Qed.

Lemma finder_consumes :
  Forall (λ fp, consumes fp.2 = true) (patterns StatuteCrossReferenceFinder).
Proof. repeat constructor. Qed.

(** * Properties of the analysis *)

(** C1. For every text and every family, each match record returned by
    [find_references] has a span [(start, end)] with
    [0 <= start <= end <= len(text)], and its [full_text] is exactly
    [text[start:end]]. *)
Theorem find_references_spans (db : unicode_db) (text : str)
    (family : string) (refs : list ref_data) (r : ref_data) :
  dict_get family (find_references db StatuteCrossReferenceFinder text)
    = Some refs →
  r ∈ refs →
  (0 ≤ (position r).1 ≤ (position r).2)%Z ∧
  ((position r).2 ≤ len text)%Z ∧
  full_text r = py_slice text (position r).1 (position r).2.
Proof.
  rewrite find_references_eq by apply finder_keys_NoDup.
  intros Hget%dict_get_Some_elem Hr.
  apply matched_families_elem in Hget as (_ & p & _ & ->).
  apply family_matches_spec in Hr as (? & ? & ? & _). done.
Qed.

Lemma find_references_spans_witness :
  dict_get "Section_Only"
    (find_references db_latin1 StatuteCrossReferenceFinder bare_section_text)
    = Some [RefData (SECTION_SIGN :: py " 501") (0, 5)%Z [Some (py "501")]] ∧
  (0 ≤ 0 ≤ 5)%Z ∧ (5 ≤ len bare_section_text)%Z ∧
  SECTION_SIGN :: py " 501" = py_slice bare_section_text 0 5.
Proof.
  assert (dict_get "Section_Only"
            (find_references db_latin1 StatuteCrossReferenceFinder
               bare_section_text)
          = Some [RefData (SECTION_SIGN :: py " 501") (0, 5)%Z
                    [Some (py "501")]]) as Hget
    by (vm_compute; reflexivity).
  split; [exact Hget|].
  exact (find_references_spans db_latin1 bare_section_text "Section_Only" _ _
           Hget (list_elem_of_here _ _)).
Defined.

Lemma len_py_slice (text : str) (a b : Z) :
  (0 ≤ a ≤ b)%Z → (b ≤ len text)%Z → len (py_slice text a b) = (b - a)%Z.
Proof.
  intros Hab Hb. unfold py_slice. rewrite !slice_index_id by lia.
  unfold len in *. rewrite length_take, length_drop. lia.
Qed.




(** C3. A surface text that occurs among the raw matches the scanner
    returns, whichever families matched it and wherever, is exactly one
    key of the cross-reference map (the keys are pairwise distinct and it
    is one of them), and the length of its location list is the number of
    raw matches, over all families, with that exact surface text. *)
Theorem one_entry_per_citation (db : unicode_db) (text citation : str) :
  citation ∈ full_text <$>
    mjoin (values (find_references db StatuteCrossReferenceFinder text)) →
  NoDup (keys (create_cross_reference_map db StatuteCrossReferenceFinder text)) ∧
  citation ∈ keys (create_cross_reference_map db StatuteCrossReferenceFinder text) ∧
  ∃ locs,
    dict_get citation
      (create_cross_reference_map db StatuteCrossReferenceFinder text)
      = Some locs ∧
    length locs =
      occurrences citation
        (mjoin (values (find_references db StatuteCrossReferenceFinder text))).
Proof.
  pose proof finder_keys_NoDup as Hnd.
  rewrite find_references_values by done. intros Hin.
  apply (xref_keys db _ _ _ Hnd) in Hin as Hkey.
  split_and!; [by apply xref_keys_NoDup | done |].
  destruct (dict_get citation
              (create_cross_reference_map db StatuteCrossReferenceFinder text))
    as [locs|] eqn:Hget.
  - exists locs. split; [done|].
    apply xref_lookup in Hget; [|done]. subst locs.
    by rewrite length_fmap.
  - by apply dict_get_None in Hget.
Qed.

Lemma one_entry_per_citation_witness :
  SECTION_SIGN :: py " 5" ∈
    full_text <$>
      mjoin (values (find_references db_latin1 StatuteCrossReferenceFinder
                       repeated_text)) ∧
  occurrences (SECTION_SIGN :: py " 5")
    (mjoin (values (find_references db_latin1 StatuteCrossReferenceFinder
                      repeated_text))) = 2 ∧
  ∃ locs,
    dict_get (SECTION_SIGN :: py " 5")
      (create_cross_reference_map db_latin1 StatuteCrossReferenceFinder
         repeated_text) = Some locs ∧
    length locs =
      occurrences (SECTION_SIGN :: py " 5")
        (mjoin (values (find_references db_latin1 StatuteCrossReferenceFinder
                          repeated_text))).
Proof.
  assert (SECTION_SIGN :: py " 5" ∈
            full_text <$>
              mjoin (values (find_references db_latin1
                               StatuteCrossReferenceFinder repeated_text)))
    as Hin by (vm_compute; apply list_elem_of_here).
  split; [exact Hin|]. split; [by vm_compute|].
  apply (one_entry_per_citation db_latin1 repeated_text _ Hin).
Defined.


(** C5. [unique_references] never exceeds [total_references]. *)
Theorem unique_le_total (db : unicode_db) (text : str) :
  (unique_references (analyze_document db StatuteCrossReferenceFinder text)
   ≤ total_references (analyze_document db StatuteCrossReferenceFinder text))%Z.
Proof.
  rewrite total_references_eq, unique_references_eq by apply finder_keys_NoDup.
  apply py_sum_le. intros fp _. unfold len.
  pose proof (size_list_to_set_le (full_text <$> family_matches db fp.2 text)).
  rewrite length_fmap in *. lia.
Qed.



(** C7, as stated, fails on the sample document: the bare section pattern
    also matches inside the first citation, so neither total is 3 and the
    map does not have 3 keys. *)
Lemma sample_counts_are_not_three :
  total_references
    (analyze_document db_latin1 StatuteCrossReferenceFinder sample_text) ≠ 3%Z ∧
  unique_references
    (analyze_document db_latin1 StatuteCrossReferenceFinder sample_text) ≠ 3%Z ∧
  length (keys (cross_reference_map
    (analyze_document db_latin1 StatuteCrossReferenceFinder sample_text))) ≠ 3.
Proof. split_and!; by vm_compute. Qed.

(** C7, amended. On the sample document the USC family has exactly the
    two raw matches "42 U.S.C. § 1983" and "42 USC 1983" (two unique USC
    citations), the CFR family exactly "29 CFR 1910.1200", and the
    Section_Only family exactly "§ 1983", found inside the first USC
    citation; no other family matches; [total_references] and
    [unique_references] are both 4; the cross-reference map has exactly
    these 4 keys, each with one location. *)
Theorem sample_analysis (db : unicode_db) :
  (λ g : string * list ref_data, (g.1, full_text <$> g.2)) <$>
    all_references (analyze_document db StatuteCrossReferenceFinder sample_text)
    = [("USC"%string, [py "42 U.S.C. " ++ SECTION_SIGN :: py " 1983";
                       py "42 USC 1983"]);
       ("CFR"%string, [py "29 CFR 1910.1200"]);
       ("Section_Only"%string, [SECTION_SIGN :: py " 1983"])] ∧
  unique_citations (analyze_document db StatuteCrossReferenceFinder sample_text)
    = [("USC"%string,
        {[ py "42 U.S.C. " ++ SECTION_SIGN :: py " 1983"; py "42 USC 1983" ]});
       ("CFR"%string, {[ py "29 CFR 1910.1200" ]});
       ("Section_Only"%string, {[ SECTION_SIGN :: py " 1983" ]})] ∧
  by_type (analyze_document db StatuteCrossReferenceFinder sample_text)
    = [("USC"%string, 2%Z); ("CFR"%string, 1%Z); ("Section_Only"%string, 1%Z)] ∧
  total_references
    (analyze_document db StatuteCrossReferenceFinder sample_text) = 4%Z ∧
  unique_references
    (analyze_document db StatuteCrossReferenceFinder sample_text) = 4%Z ∧
  (λ e : list N * list (Z * list N), (e.1, length e.2)) <$>
    cross_reference_map
      (analyze_document db StatuteCrossReferenceFinder sample_text)
    = [(py "42 U.S.C. " ++ SECTION_SIGN :: py " 1983", 1);
       (py "42 USC 1983", 1);
       (py "29 CFR 1910.1200", 1);
       (SECTION_SIGN :: py " 1983", 1)].
Proof. split_and!; vm_compute; reflexivity. Qed.


Lemma family_matches_ascending (db : unicode_db) (p : regex) (text : str) :
  consumes p = true →
  StronglySorted Z.lt ((λ r, (position r).1) <$> family_matches db p text).
Proof.
  intros Hc. unfold family_matches. rewrite <-list_fmap_compose.
  eapply StronglySorted_fmap; [|by apply finditer_ascending].
  intros a b Hab. unfold compose, ref_of, span. simpl in *. lia.
Qed.

(** C9. The location list of every key of the cross-reference map holds
    the locations of the raw matches with that surface text in the order
    the matches are processed: the families in the order of the pattern
    dictionary and, within a family, left to right, which is by strictly
    ascending position. Nothing sorts the combined list by position. *)
Theorem locations_in_processing_order (db : unicode_db) (text citation : str)
    (locs : list (Z * str)) :
  dict_get citation
    (create_cross_reference_map db StatuteCrossReferenceFinder text)
    = Some locs →
  locs = location text <$>
           filter (λ r, full_text r = citation)
             (patterns StatuteCrossReferenceFinder
                ≫= λ fp, family_matches db fp.2 text) ∧
  Forall (λ fp, StronglySorted Z.lt
                  ((λ r, (position r).1) <$> family_matches db fp.2 text))
    (patterns StatuteCrossReferenceFinder).
Proof.
  intros Hget. split.
  - by apply xref_lookup in Hget; [|apply finder_keys_NoDup].
  - eapply Forall_impl; [apply finder_consumes|].
    intros fp Hc. by apply family_matches_ascending.
Qed.

Lemma locations_in_processing_order_witness :
  dict_get (SECTION_SIGN :: py " 5")
    (create_cross_reference_map db_latin1 StatuteCrossReferenceFinder
       repeated_text)
    = Some [(4%Z, repeated_text); (12%Z, repeated_text)] ∧
  [(4%Z, repeated_text); (12%Z, repeated_text)] =
    location repeated_text <$>
      filter (λ r, full_text r = SECTION_SIGN :: py " 5")
        (patterns StatuteCrossReferenceFinder
           ≫= λ fp, family_matches db_latin1 fp.2 repeated_text).
Proof.
  assert (dict_get (SECTION_SIGN :: py " 5")
            (create_cross_reference_map db_latin1 StatuteCrossReferenceFinder
               repeated_text)
          = Some [(4%Z, repeated_text); (12%Z, repeated_text)]) as Hget
    by (vm_compute; reflexivity).
  split; [exact Hget|].
  apply (locations_in_processing_order db_latin1 repeated_text _ _ Hget).
Defined.

Lemma keys_fmap_values {K A B} (h : A → B) (gs : list (K * A)) :
  keys ((λ g, (g.1, h g.2)) <$> gs) = keys gs.
Proof. unfold keys. by rewrite <-list_fmap_compose. Qed.

Lemma matched_families_key (db : unicode_db) (self : finder) (text : str)
    (family : string) :
  family ∈ keys (matched_families db self text) ↔
  ∃ pattern, (family, pattern) ∈ patterns self ∧ finditer db pattern text ≠ [].
Proof.
  unfold keys. rewrite list_elem_of_fmap. split.
  - intros ([f refs] & -> & (Hne & p & Hin & ->)%matched_families_elem).
    exists p. split; [done|]. intros Hnil. apply Hne.
    unfold family_matches. by rewrite Hnil.
  - intros (p & Hin & Hne). exists (family, family_matches db p text).
    split; [done|]. apply matched_families_elem. split; [|by exists p].
    unfold family_matches. by intros ?%fmap_nil_inv.
Qed.

(** C10. A family is a key of the dictionary [find_references] returns,
    and of the [by_type], [unique_citations] and [all_references] fields
    of the analysis, exactly when it has at least one raw match in the
    text; no key is bound to an empty list, a zero count or an empty
    set. *)
Theorem families_present_iff_matched (db : unicode_db) (text : str)
    (family : string) :
  (family ∈ keys (find_references db StatuteCrossReferenceFinder text) ↔
   ∃ pattern, (family, pattern) ∈ patterns StatuteCrossReferenceFinder ∧
              finditer db pattern text ≠ []) ∧
  (family ∈ keys (by_type
               (analyze_document db StatuteCrossReferenceFinder text)) ↔
   ∃ pattern, (family, pattern) ∈ patterns StatuteCrossReferenceFinder ∧
              finditer db pattern text ≠ []) ∧
  (family ∈ keys (unique_citations
               (analyze_document db StatuteCrossReferenceFinder text)) ↔
   ∃ pattern, (family, pattern) ∈ patterns StatuteCrossReferenceFinder ∧
              finditer db pattern text ≠ []) ∧
  (family ∈ keys (all_references
               (analyze_document db StatuteCrossReferenceFinder text)) ↔
   ∃ pattern, (family, pattern) ∈ patterns StatuteCrossReferenceFinder ∧
              finditer db pattern text ≠ []) ∧
  Forall (λ g, g.2 ≠ [])
    (find_references db StatuteCrossReferenceFinder text) ∧
  Forall (λ g, g.2 ≠ 0%Z)
    (by_type (analyze_document db StatuteCrossReferenceFinder text)) ∧
  Forall (λ g, g.2 ≠ ∅)
    (unique_citations (analyze_document db StatuteCrossReferenceFinder text)).
Proof.
  pose proof finder_keys_NoDup as Hnd.
  assert (keys (by_type (analyze_document db StatuteCrossReferenceFinder text))
          = keys (matched_families db StatuteCrossReferenceFinder text)) as Hk2.
  { rewrite by_type_eq by done. apply keys_fmap_values. }
  assert (unique_citations (analyze_document db StatuteCrossReferenceFinder text)
          = (λ g, (g.1, list_to_set (full_text <$> g.2) : gset (list N))) <$>
              matched_families db StatuteCrossReferenceFinder text) as Hu.
  { by apply get_unique_references_eq. }
  assert (keys (unique_citations
                  (analyze_document db StatuteCrossReferenceFinder text))
          = keys (matched_families db StatuteCrossReferenceFinder text)) as Hk3.
  { rewrite Hu. unfold keys. by rewrite <-list_fmap_compose. }
  assert (all_references (analyze_document db StatuteCrossReferenceFinder text)
          = find_references db StatuteCrossReferenceFinder text) as Hk4 by done.
  rewrite Hk2, Hk3, Hk4, Hu, by_type_eq, find_references_eq by done.
  split; [apply matched_families_key|].
  split; [apply matched_families_key|].
  split; [apply matched_families_key|].
  split; [apply matched_families_key|].
  split; [|split].
  - unfold matched_families. apply Forall_forall.
    intros g [Hne _]%list_elem_of_filter. done.
  - apply Forall_fmap, Forall_forall.
    intros g [Hne _]%list_elem_of_filter. simpl.
    destruct (g.2); [done|]. unfold len. simpl. lia.
  - apply Forall_fmap, Forall_forall.
    intros g [Hne _]%list_elem_of_filter. simpl.
    destruct (g.2) as [|r l]; [done|]. rewrite fmap_cons, list_to_set_cons.
    intros Hempty. assert (full_text r ∈ (∅ : gset (list N))) as Hin.
    { rewrite <-Hempty. apply elem_of_union_l, elem_of_singleton. done. }
    by apply elem_of_empty in Hin.
Qed.

(** * Further properties *)

(** Within a family the matches do not overlap: each one ends
    before the next one starts. *)
Theorem family_matches_do_not_overlap (db : unicode_db) (text : str) :
  Forall (λ g, StronglySorted
                 (λ a b, ((position a).2 ≤ (position b).1)%Z) g.2)
    (find_references db StatuteCrossReferenceFinder text).
Proof.
  rewrite find_references_eq by apply finder_keys_NoDup.
  apply Forall_forall. intros [f refs] (_ & p & _ & ->)%matched_families_elem.
  simpl. unfold family_matches.
  eapply StronglySorted_fmap; [|apply finditer_disjoint].
  intros a b Hab. unfold ref_of, span. simpl in *. lia.
Qed.

(** The scan of a text always ends within the steps [finditer]
    allows it: allowing [k] more steps gives the same matches. *)
Theorem finditer_total (db : unicode_db) (pattern : regex) (text : str)
    (k : nat) :
  scan db pattern text (2 * length text + 2 + k) 0 false =
    finditer db pattern text.
Proof. apply finditer_fuel. Qed.

Lemma py_sum_app (l1 l2 : list Z) :
  py_sum (l1 ++ l2) = (py_sum l1 + py_sum l2)%Z.
Proof.
  induction l1 as [|x l1 IH].
  - cbn [app]. change (py_sum []) with 0%Z. lia.
  - rewrite <-app_comm_cons, !py_sum_cons, IH. lia.
Qed.

Lemma py_sum_dd_append {K A} `{EqDecision K} (k : K) (x : A)
    (d : list (K * list A)) :
  py_sum (len <$> values (dd_append k x d)) =
    (py_sum (len <$> values d) + 1)%Z.
Proof.
  unfold dd_append, values. induction d as [|[k' l] d IH]; [done|].
  cbn [dict_get dict_set]. destruct (decide (k = k')) as [->|Hne].
  - cbn [default]. rewrite !fmap_cons, !py_sum_cons. cbn [snd].
    unfold len. rewrite length_app. simpl. lia.
  - rewrite !fmap_cons, !py_sum_cons, IH. lia.
Qed.

Lemma py_sum_dd_extend {K A} `{EqDecision K} (kvs : list (K * A))
    (d : list (K * list A)) :
  py_sum (len <$> values (foldl (λ d kv, dd_append kv.1 kv.2 d) d kvs)) =
    (py_sum (len <$> values d) + len kvs)%Z.
Proof.
  revert d. induction kvs as [|[k x] kvs IH]; intros d.
  - unfold len. simpl. lia.
  - cbn [foldl]. rewrite IH, py_sum_dd_append. unfold len. cbn [length fst snd].
    lia.
Qed.

Lemma len_raw_matches (db : unicode_db) (self : finder) (text : str) :
  len (raw_matches db self text) =
    py_sum ((λ fp, len (family_matches db fp.2 text)) <$> patterns self).
Proof.
  unfold raw_matches. induction (patterns self) as [|fp ps IH]; [done|].
  rewrite bind_cons, fmap_cons, py_sum_cons, <-IH.
  unfold len. rewrite length_app. lia.
Qed.

Lemma xref_locations_total (db : unicode_db) (text : str) :
  py_sum (len <$> values (cross_reference_map
            (analyze_document db StatuteCrossReferenceFinder text))) =
    total_references (analyze_document db StatuteCrossReferenceFinder text).
Proof.
  pose proof finder_keys_NoDup as Hnd.
  rewrite total_references_eq by done.
  unfold analyze_document. cbn [cross_reference_map].
  rewrite create_cross_reference_map_eq, py_sum_dd_extend by done.
  rewrite <-len_raw_matches. change (py_sum (len <$> values [])) with 0%Z.
  unfold len. rewrite length_fmap. lia.
Qed.

(** Every raw match is indexed once: the location lists of the
    cross-reference map have [total_references] entries in all. *)
Theorem locations_count_is_total (db : unicode_db) (text : str) :
  py_sum (len <$> values (cross_reference_map
            (analyze_document db StatuteCrossReferenceFinder text))) =
    total_references (analyze_document db StatuteCrossReferenceFinder text).
Proof. apply xref_locations_total. Qed.

(** On a bare section citation with parenthesised sub-parts only
    the section pattern matches, and it takes the section mark and the
    leading number. *)
Theorem bare_section_match (db : unicode_db) :
  find_references db StatuteCrossReferenceFinder bare_section_text =
    [("Section_Only"%string,
      [RefData (SECTION_SIGN :: py " 501") (0, 5)%Z [Some (py "501")]])].
Proof. vm_compute. reflexivity. Qed.


(** * The scan misses no match *)

Section ScanComplete.
Context (db : unicode_db) (text : str).
Implicit Types (r : regex) (st : mstate).

Lemma bind_nil_elem {A B} (f : A → list B) (l : list A) :
  (∀ x, x ∈ l → f x = []) → l ≫= f = [].
Proof.
  induction l as [|x l IH]; intros Hf; [done|]. rewrite bind_cons.
  rewrite (Hf x) by left. rewrite IH; [done|].
  intros y Hy. apply Hf. by right.
Qed.

(** At the end of the text nothing that takes a character matches. *)
Lemma m_consumes_end r st :
  consumes r = true → length text ≤ pos st → m db text r st = [].
Proof.
  revert st.
  induction r as [|p|items| | | |r1 IH1 r2 IH2|r1 IH1 r2 IH2|r1 IH1|r1 IH1|r1 IH1|n r1 IH1];
    intros st; simpl; try done.
  - intros _ Hst. unfold one. by rewrite lookup_ge_None_2.
  - intros _ Hst. unfold one. by rewrite lookup_ge_None_2.
  - intros _ Hst. unfold one. by rewrite lookup_ge_None_2.
  - intros _ Hst. unfold one. by rewrite lookup_ge_None_2.
  - intros [Hc|Hc]%orb_true_iff Hst.
    + by rewrite IH1.
    + apply bind_nil_elem. intros st' Hst'%m_forward. apply IH2; [done | lia].
  - intros [Hc1 Hc2]%andb_true_iff Hst. by rewrite IH1, IH2.
  - intros Hc Hst. by rewrite IH1.
  - intros Hc Hst. by rewrite IH1.
Qed.

Lemma match_at_end r s adv :
  consumes r = true → length text ≤ s → match_at db text r s adv = None.
Proof.
  intros Hc Hs. unfold match_at. by rewrite m_consumes_end.
Qed.

Lemma search_skips r n s adv s' st :
  search db text r n s adv = Some (s', st) →
  ∀ t, s ≤ t < s' → match_at db text r t (adv && (t =? s)) = None.
Proof.
  revert s adv. induction n as [|n IH]; intros s adv; simpl.
  - destruct (match_at db text r s adv) eqn:Hm; [|done].
    intros [= <- <-] t Ht. lia.
  - destruct (match_at db text r s adv) eqn:Hm.
    + intros [= <- <-] t Ht. lia.
    + intros Hsearch t Ht. destruct (decide (t = s)) as [->|Hne].
      * by rewrite Nat.eqb_refl, andb_true_r.
      * replace (t =? s) with false by (symmetry; by apply Nat.eqb_neq).
        rewrite andb_false_r.
        specialize (IH _ _ Hsearch t). rewrite andb_false_l in IH.
        apply IH. lia.
Qed.

Lemma search_None r n s adv :
  search db text r n s adv = None →
  ∀ t, s ≤ t ≤ s + n → match_at db text r t (adv && (t =? s)) = None.
Proof.
  revert s adv. induction n as [|n IH]; intros s adv; simpl.
  - destruct (match_at db text r s adv) eqn:Hm; [done|].
    intros _ t Ht. replace t with s by lia.
    by rewrite Nat.eqb_refl, andb_true_r.
  - destruct (match_at db text r s adv) eqn:Hm; [done|].
    intros Hsearch t Ht. destruct (decide (t = s)) as [->|Hne].
    + by rewrite Nat.eqb_refl, andb_true_r.
    + replace (t =? s) with false by (symmetry; by apply Nat.eqb_neq).
      rewrite andb_false_r.
      specialize (IH _ _ Hsearch t). rewrite andb_false_l in IH.
      apply IH. lia.
Qed.

(** Every offset at which a pattern that takes a character matches lies
    inside one of the matches of the scan. *)
Lemma scan_complete r fuel s0 t :
  consumes r = true →
  s0 ≤ length text → 2 * (length text - s0) + 1 < fuel →
  s0 ≤ t → is_Some (match_at db text r t false) →
  Exists (λ mo, m_start mo ≤ t < m_end mo) (scan db r text fuel s0 false).
Proof.
  intros Hc. revert s0. induction fuel as [|fuel IH]; intros s0 Hs0 Hfuel Ht Hm;
    [lia|].
  assert (t < length text) as Htlen.
  { destruct (decide (t < length text)); [done|].
    rewrite match_at_end in Hm by (done || lia). by destruct Hm. }
  cbn [scan].
  destruct (search db text r (length text - s0) s0 false) as [[s' st]|]
    eqn:Hsearch.
  - pose proof (search_skips _ _ _ _ _ _ Hsearch t) as Hskip.
    cbn [andb] in Hskip. apply search_Some in Hsearch as [Hs' Hat].
    apply match_at_Some in Hat as (Hle & Hlen & Hlt). specialize (Hlt Hc).
    destruct (decide (t < s')) as [Hlt'|Hge].
    { rewrite Hskip in Hm by lia. by destruct Hm. }
    destruct (decide (t < pos st)) as [Hin|Hout].
    { apply Exists_cons_hd. simpl. lia. }
    apply Exists_cons_tl.
    replace (pos st =? s') with false by (symmetry; apply Nat.eqb_neq; lia).
    apply IH; [lia | lia | lia | done].
  - pose proof (search_None _ _ _ _ Hsearch t) as Hnone.
    cbn [andb] in Hnone. rewrite Hnone in Hm by lia. by destruct Hm.
Qed.

Lemma finditer_complete r t :
  consumes r = true →
  is_Some (match_at db text r t false) →
  Exists (λ mo, m_start mo ≤ t < m_end mo) (finditer db r text).
Proof.
  intros Hc Hm. unfold finditer. apply scan_complete; (done || lia).
Qed.
End ScanComplete.

(** * Facts about capture groups *)

Section GroupFacts.
Context (db : unicode_db) (text : str).
Implicit Types (r : regex) (st : mstate) (o : option (nat * nat)).

(** A recorded span is not empty and lies between [lo] and [hi]. *)
Local Abbreviation span_ok lo hi o :=
  (match o with Some sp => lo ≤ sp.1 ∧ sp.1 < sp.2 ∧ sp.2 ≤ hi | None => True end).

Lemma spans_ok_mono lo hi hi' (marks : list (option (nat * nat))) :
  hi ≤ hi' → Forall (λ o, span_ok lo hi o) marks →
  Forall (λ o, span_ok lo hi' o) marks.
Proof.
  intros Hhi Hall. eapply Forall_impl; [exact Hall|].
  intros [[a b]|]; simpl; [lia | done].
Qed.

Lemma loop_spans f n lo st st' :
  (∀ a b, b ∈ f a → pos a ≤ pos b) →
  (∀ a b, b ∈ f a → lo ≤ pos a →
     Forall (λ o, span_ok lo (pos a) o) (marks a) →
     Forall (λ o, span_ok lo (pos b) o) (marks b)) →
  st' ∈ loop f n st → lo ≤ pos st →
  Forall (λ o, span_ok lo (pos st) o) (marks st) →
  Forall (λ o, span_ok lo (pos st') o) (marks st').
Proof.
  intros Hpos Hf. revert st. induction n as [|n IH]; intros st; simpl.
  - by intros ->%list_elem_of_singleton.
  - rewrite elem_of_app, list_elem_of_bind, list_elem_of_singleton.
    intros [(y & Hy & [_ Hin]%list_elem_of_filter)| ->] Hlo Hok; [|done].
    apply (IH _ Hy).
    + apply Hpos in Hin. lia.
    + by apply (Hf _ _ Hin).
Qed.

(** The spans recorded during a match lie within what has been matched. *)
Lemma m_spans r lo st st' :
  groups_consume r = true → st' ∈ m db text r st → lo ≤ pos st →
  Forall (λ o, span_ok lo (pos st) o) (marks st) →
  Forall (λ o, span_ok lo (pos st') o) (marks st').
Proof.
  revert st st'.
  induction r as [|p|items| | | |r1 IH1 r2 IH2|r1 IH1 r2 IH2|r1 IH1|r1 IH1|r1 IH1|n r1 IH1];
    intros st st'; simpl.
  - by intros _ ->%list_elem_of_singleton.
  - intros _ (Hp & _ & ->)%one_elem _. apply spans_ok_mono. lia.
  - intros _ (Hp & _ & ->)%one_elem _. apply spans_ok_mono. lia.
  - intros _ (Hp & _ & ->)%one_elem _. apply spans_ok_mono. lia.
  - intros _ (Hp & _ & ->)%one_elem _. apply spans_ok_mono. lia.
  - intros _. destruct (at_boundary db text (pos st)); [|by intros ?%elem_of_nil].
    by intros ->%list_elem_of_singleton.
  - intros [Hg1 Hg2]%andb_true_iff (y & Hy & Hin)%list_elem_of_bind Hlo Hok.
    apply (IH2 _ _ Hg2 Hy).
    + apply m_forward in Hin. lia.
    + by apply (IH1 _ _ Hg1 Hin).
  - intros [Hg1 Hg2]%andb_true_iff [?|?]%elem_of_app; eauto.
  - intros Hg [?| ->%list_elem_of_singleton]%elem_of_app; eauto.
  - intros Hg Hin. eapply loop_spans; [| |exact Hin].
    + intros a b Hb%m_forward. lia.
    + intros a b Hb. by apply IH1.
  - intros Hg (y & Hy & Hin)%list_elem_of_bind Hlo Hok.
    eapply loop_spans; [| |exact Hy| |].
    + intros a b Hb%m_forward. lia.
    + intros a b Hb. by apply IH1.
    + apply m_forward in Hin. lia.
    + by apply (IH1 _ _ Hg Hin).
  - intros [[Hn Hc]%andb_true_iff Hg]%andb_true_iff
      (y & -> & Hy)%list_elem_of_fmap Hlo Hok.
    simpl. apply Forall_insert; [by apply (IH1 _ _ Hg Hy)|].
    simpl. apply (m_consumes _ _ _ _ _ Hc) in Hy. lia.
Qed.

Lemma loop_marks_length f n st st' :
  (∀ a b, b ∈ f a → length (marks b) = length (marks a)) →
  st' ∈ loop f n st → length (marks st') = length (marks st).
Proof.
  intros Hf. revert st. induction n as [|n IH]; intros st; simpl.
  - by intros ->%list_elem_of_singleton.
  - rewrite elem_of_app, list_elem_of_bind, list_elem_of_singleton.
    intros [(y & Hy & [_ Hin]%list_elem_of_filter)| ->]; [|done].
    rewrite (IH _ Hy). by apply Hf.
Qed.

Lemma m_marks_length r st st' :
  st' ∈ m db text r st → length (marks st') = length (marks st).
Proof.
  revert st st'.
  induction r as [|p|items| | | |r1 IH1 r2 IH2|r1 IH1 r2 IH2|r1 IH1|r1 IH1|r1 IH1|n r1 IH1];
    intros st st'; simpl.
  - by intros ->%list_elem_of_singleton.
  - by intros (_ & _ & ->)%one_elem.
  - by intros (_ & _ & ->)%one_elem.
  - by intros (_ & _ & ->)%one_elem.
  - by intros (_ & _ & ->)%one_elem.
  - destruct (at_boundary db text (pos st)); [|by intros ?%elem_of_nil].
    by intros ->%list_elem_of_singleton.
  - intros (y & Hy & Hin)%list_elem_of_bind.
    rewrite (IH2 _ _ Hy). by apply IH1.
  - intros [?|?]%elem_of_app; eauto.
  - intros [?| ->%list_elem_of_singleton]%elem_of_app; eauto.
  - by apply loop_marks_length.
  - intros (y & Hy & Hin)%list_elem_of_bind.
    rewrite (loop_marks_length _ _ _ _ IH1 Hy). by apply IH1.
  - intros (y & -> & Hy)%list_elem_of_fmap. simpl.
    rewrite length_insert. by apply IH1.
Qed.

Lemma loop_marks_kept f n i st st' :
  (∀ a b, b ∈ f a → (∃ sp, marks a !! i = Some (Some sp)) →
     ∃ sp, marks b !! i = Some (Some sp)) →
  st' ∈ loop f n st → (∃ sp, marks st !! i = Some (Some sp)) →
  ∃ sp, marks st' !! i = Some (Some sp).
Proof.
  intros Hf. revert st. induction n as [|n IH]; intros st; simpl.
  - by intros ->%list_elem_of_singleton.
  - rewrite elem_of_app, list_elem_of_bind, list_elem_of_singleton.
    intros [(y & Hy & [_ Hin]%list_elem_of_filter)| ->] Hsome; [|done].
    apply (IH _ Hy). by apply (Hf _ _ Hin).
Qed.

(** A span once recorded is never erased. *)
Lemma m_marks_kept r i st st' :
  st' ∈ m db text r st →
  (∃ sp, marks st !! i = Some (Some sp)) →
  ∃ sp, marks st' !! i = Some (Some sp).
Proof.
  revert st st'.
  induction r as [|p|items| | | |r1 IH1 r2 IH2|r1 IH1 r2 IH2|r1 IH1|r1 IH1|r1 IH1|n r1 IH1];
    intros st st'; simpl.
  - by intros ->%list_elem_of_singleton.
  - by intros (_ & _ & ->)%one_elem.
  - by intros (_ & _ & ->)%one_elem.
  - by intros (_ & _ & ->)%one_elem.
  - by intros (_ & _ & ->)%one_elem.
  - destruct (at_boundary db text (pos st)); [|by intros ?%elem_of_nil].
    by intros ->%list_elem_of_singleton.
  - intros (y & Hy & Hin)%list_elem_of_bind Hsome. eauto.
  - intros [?|?]%elem_of_app; eauto.
  - intros [?| ->%list_elem_of_singleton]%elem_of_app; eauto.
  - by apply loop_marks_kept.
  - intros (y & Hy & Hin)%list_elem_of_bind Hsome.
    apply (loop_marks_kept _ _ _ _ _ IH1 Hy). eauto.
  - intros (y & -> & Hy)%list_elem_of_fmap Hsome. simpl.
    destruct (IH1 _ _ Hy Hsome) as [sp Hsp].
    destruct (decide (pred n = i)) as [<-|Hne].
    + exists (pos st, pos y). apply list_lookup_insert_eq.
      by eapply lookup_lt_Some.
    + exists sp. by rewrite list_lookup_insert_ne.
Qed.
(** A group that takes part in every match has a span after a match. *)
Lemma m_captures r n st st' :
  captures n r = true → 0 < n ≤ length (marks st) →
  st' ∈ m db text r st → ∃ sp, marks st' !! pred n = Some (Some sp).
Proof.
  revert st st'.
  induction r as [|p|items| | | |r1 IH1 r2 IH2|r1 IH1 r2 IH2|r1 IH1|r1 IH1|r1 IH1|k r1 IH1];
    intros st st'; simpl; try done.
  - intros [Hc|Hc]%orb_true_iff Hn (y & Hy & Hin)%list_elem_of_bind.
    + eapply m_marks_kept; [exact Hy|]. eauto.
    + apply (IH2 y _ Hc); [|done]. by rewrite (m_marks_length _ _ _ Hin).
  - intros [Hc1 Hc2]%andb_true_iff Hn [?|?]%elem_of_app; eauto.
  - intros Hc Hn (y & Hy & Hin)%list_elem_of_bind.
    apply (loop_marks_kept _ _ _ _ _ (λ a b, m_marks_kept r1 _ a b) Hy). eauto.
  - intros Hc Hn (y & -> & Hy)%list_elem_of_fmap. simpl.
    pose proof (m_marks_length _ _ _ Hy) as Hlen.
    destruct (decide (pred k = pred n)) as [->|Hne].
    + exists (pos st, pos y). apply list_lookup_insert_eq. lia.
    + rewrite list_lookup_insert_ne by done.
      apply orb_true_iff in Hc as [Hk%Nat.eqb_eq|Hc]; [by subst|]. eauto.
Qed.

Lemma match_at_elem r s adv st :
  match_at db text r s adv = Some st →
  st ∈ m db text r (MState s (replicate (ngroups r) None)).
Proof.
  unfold match_at. intros [Hin _]%find_some. by apply list_elem_of_In.
Qed.

(** A match object of a scan records one way the pattern matches at its
    start. *)
Lemma scan_elem r fuel s adv mo :
  mo ∈ scan db r text fuel s adv →
  ∃ st, st ∈ m db text r (MState (m_start mo) (replicate (ngroups r) None)) ∧
        pos st = m_end mo ∧ marks st = m_regs mo ∧ m_string mo = text.
Proof.
  revert s adv. induction fuel as [|fuel IH]; intros s adv; simpl.
  - by intros ?%elem_of_nil.
  - destruct (search db text r (length text - s) s adv) as [[s' st]|] eqn:Hsearch;
      [|by intros ?%elem_of_nil].
    intros [->|Hin]%elem_of_cons; [|by eapply IH].
    apply search_Some in Hsearch as [_ Hat%match_at_elem].
    exists st. done.
Qed.

Lemma finditer_regs r mo :
  groups_consume r = true → all_captured r = true →
  mo ∈ finditer db r text →
  length (m_regs mo) = ngroups r ∧
  Forall (λ o, ∃ a b, o = Some (a, b) ∧
                      m_start mo ≤ a ∧ a < b ∧ b ≤ m_end mo) (m_regs mo).
Proof.
  intros Hg Hall (st & Hst & Hend & Hregs & _)%scan_elem.
  pose proof (m_marks_length _ _ _ Hst) as Hlen.
  cbn [marks] in Hlen. rewrite length_replicate in Hlen.
  rewrite <-Hregs, <-Hend. split; [done|].
  pose proof (m_spans _ (m_start mo) _ _ Hg Hst) as Hspans.
  cbn [pos marks] in Hspans.
  assert (Forall (λ o, span_ok (m_start mo) (pos st) o) (marks st)) as Hok.
  { apply Hspans; [done|]. by apply Forall_replicate. }
  apply Forall_lookup_2. intros i o Hi.
  assert (i < ngroups r) as Hlt.
  { rewrite <-Hlen. by eapply lookup_lt_Some. }
  assert (captures (S i) r = true) as Hc.
  { unfold all_captured in Hall. rewrite forallb_forall in Hall.
    apply Hall, in_seq. lia. }
  assert (0 < S i ≤ length (marks (MState (m_start mo)
                                        (replicate (ngroups r) None)))) as Hrange.
  { cbn [marks]. rewrite length_replicate. lia. }
  destruct (m_captures _ _ _ _ Hc Hrange Hst) as [[a b] Hsp].
  cbn [pred] in Hsp. rewrite Hi in Hsp. injection Hsp as ->.
  apply (Forall_lookup_1 _ _ _ _ Hok) in Hi. simpl in Hi.
  exists a, b. split; [done | lia].
Qed.
End GroupFacts.

(** * Further properties of the scanner *)

Lemma finder_groups :
  Forall (λ fp, groups_consume fp.2 = true ∧ all_captured fp.2 = true ∧
                ngroups fp.2 =
                  if decide (fp.1 = "Section_Only"%string) then 1 else 2)
    (patterns StatuteCrossReferenceFinder).
Proof. repeat constructor. Qed.

(** Wherever in the text a family's pattern matches, the offset lies
    inside one of the matches [find_references] returns for the family:
    the scan drops a match only when it overlaps one it has kept. *)
Theorem no_match_outside_the_returned_ones (db : unicode_db) (text : str)
    (family : string) (pattern : regex) (t : nat) :
  (family, pattern) ∈ patterns StatuteCrossReferenceFinder →
  is_Some (match_at db text pattern t false) →
  ∃ refs r,
    dict_get family (find_references db StatuteCrossReferenceFinder text)
      = Some refs ∧
    r ∈ refs ∧ ((position r).1 ≤ Z.of_nat t < (position r).2)%Z.
Proof.
  intros Hin Hm. pose proof finder_keys_NoDup as Hnd.
  assert (consumes pattern = true) as Hc.
  { pose proof finder_consumes as Hall. rewrite Forall_forall in Hall.
    apply (Hall _ Hin). }
  apply (finditer_complete _ _ _ _ Hc), Exists_exists in Hm
    as (mo & Hmo & Ht).
  exists (family_matches db pattern text), (ref_of mo).
  rewrite find_references_eq by done. split_and!.
  - apply dict_get_elem; [by apply matched_families_keys_NoDup|].
    apply matched_families_elem. split; [|by exists pattern].
    unfold family_matches. intros Hnil%fmap_nil_inv.
    rewrite Hnil in Hmo. by apply elem_of_nil in Hmo.
  - by apply list_elem_of_fmap_2.
  - unfold ref_of, span. simpl. lia.
  - unfold ref_of, span. simpl. lia.
Qed.

Lemma no_match_outside_the_returned_ones_witness :
  ∃ refs r,
    dict_get "Section_Only"
      (find_references db_latin1 StatuteCrossReferenceFinder repeated_text)
      = Some refs ∧
    r ∈ refs ∧ ((position r).1 ≤ Z.of_nat 12 < (position r).2)%Z.
Proof.
  apply (no_match_outside_the_returned_ones db_latin1 repeated_text
           "Section_Only" Section_Only_pattern 12).
  - do 3 apply list_elem_of_further. apply list_elem_of_here.
  - eexists. vm_compute. reflexivity.
Defined.

(** Every entry of [groups] of a match record is a string, never [None]
    and never empty: it is the slice of the text at a sub-span of the
    match. There are two entries, and one for the Section_Only family. *)
Theorem captured_groups_are_sub_spans (db : unicode_db) (text : str)
    (family : string) (refs : list ref_data) (r : ref_data) :
  dict_get family (find_references db StatuteCrossReferenceFinder text)
    = Some refs →
  r ∈ refs →
  length (groups r) =
    (if decide (family = "Section_Only"%string) then 1 else 2) ∧
  Forall (λ g, ∃ a b : Z,
            ((position r).1 ≤ a ∧ a < b ∧ b ≤ (position r).2)%Z ∧
            g = Some (py_slice text a b))
    (groups r).
Proof.
  rewrite find_references_eq by apply finder_keys_NoDup.
  intros Hget%dict_get_Some_elem Hr.
  apply matched_families_elem in Hget as (_ & p & Hin & ->).
  apply list_elem_of_fmap in Hr as (mo & -> & Hmo).
  pose proof finder_groups as Hall. rewrite Forall_forall in Hall.
  destruct (Hall _ Hin) as (Hg & Hcap & Hn). cbn [fst snd] in *.
  destruct (finditer_regs db text p mo Hg Hcap Hmo) as [Hlen Hregs].
  pose proof (finditer_bounds db p text) as Hb. rewrite Forall_forall in Hb.
  destruct (Hb _ Hmo) as (Hs & Hbound & _).
  unfold ref_of, groups_of, span. cbn [groups position fst snd].
  split; [by rewrite length_fmap, Hlen|].
  apply Forall_fmap. eapply Forall_impl; [exact Hregs|].
  intros o (a & b & -> & Ha & Hab & Hb'). simpl.
  exists (Z.of_nat a), (Z.of_nat b). split; [lia|].
  rewrite Hs. by rewrite py_slice_substr by lia.
Qed.

Lemma captured_groups_are_sub_spans_witness :
  dict_get "Section_Only"
    (find_references db_latin1 StatuteCrossReferenceFinder bare_section_text)
    = Some [RefData (SECTION_SIGN :: py " 501") (0, 5)%Z [Some (py "501")]] ∧
  length [Some (py "501")] = 1 ∧
  Forall (λ g, ∃ a b : Z,
            (0 ≤ a ∧ a < b ∧ b ≤ 5)%Z ∧
            g = Some (py_slice bare_section_text a b))
    [Some (py "501")].
Proof.
  assert (dict_get "Section_Only"
            (find_references db_latin1 StatuteCrossReferenceFinder
               bare_section_text)
          = Some [RefData (SECTION_SIGN :: py " 501") (0, 5)%Z
                    [Some (py "501")]]) as Hget
    by (vm_compute; reflexivity).
  split; [exact Hget|].
  exact (captured_groups_are_sub_spans db_latin1 bare_section_text
           "Section_Only" _ _ Hget (list_elem_of_here _ _)).
Defined.

(** * Further properties of the index and the totals *)

Lemma py_slice_take_drop (s : str) (a b : Z) :
  (0 ≤ a ≤ b)%Z → (b ≤ len s)%Z →
  py_slice s a b = drop (Z.to_nat a) (take (Z.to_nat b) s).
Proof.
  intros Hab Hb. unfold py_slice. rewrite !slice_index_id by lia.
  rewrite take_drop_commute. do 2 f_equal. lia.
Qed.

(** A slice of a slice is a slice. *)
Lemma py_slice_py_slice (s : str) (a b i j : Z) :
  (0 ≤ a ≤ b)%Z → (b ≤ len s)%Z → (0 ≤ i ≤ j)%Z → (j ≤ b - a)%Z →
  py_slice (py_slice s a b) i j = py_slice s (a + i) (a + j).
Proof.
  intros Hab Hb Hij Hj.
  rewrite (py_slice_take_drop (py_slice s a b)), (py_slice_take_drop s a b),
    (py_slice_take_drop s (a + i)); try lia.
  - rewrite take_drop_commute, take_take, drop_drop. f_equal; [lia|].
    f_equal. lia.
  - rewrite len_py_slice; lia.
Qed.

Lemma py_slice_replace_char (old new : N) (s : str) (i j : Z) :
  py_slice (replace_char old new s) i j = replace_char old new (py_slice s i j).
Proof.
  unfold py_slice, replace_char, len.
  by rewrite length_fmap, fmap_take, fmap_drop.
Qed.

(** What a location of the cross-reference map says about the text: the
    citation stands in the text at the recorded position, the context has
    no line feed, and the citation (its line feeds replaced by spaces)
    stands in the context, after the at most 50 characters that precede
    it. *)
Theorem location_points_at_citation (db : unicode_db) (text citation : str)
    (locs : list (Z * str)) (p : Z) (context : str) :
  dict_get citation
    (create_cross_reference_map db StatuteCrossReferenceFinder text)
    = Some locs →
  (p, context) ∈ locs →
  py_slice text p (p + len citation) = citation ∧
  (LF ∉ context) ∧
  py_slice context (Z.min p 50) (Z.min p 50 + len citation)
    = replace_char LF SP citation.
Proof.
  intros Hget Hin.
  apply xref_lookup in Hget; [|apply finder_keys_NoDup]. subst locs.
  apply list_elem_of_fmap in Hin as (r & Heq & [Hk Hr]%list_elem_of_filter).
  apply raw_matches_spec in Hr as (Hpos & Hend & Hfull & Hlen).
  unfold location in Heq. rewrite Hk in Heq. injection Heq as -> ->.
  rewrite Hk in Hlen, Hfull. split_and!.
  - etrans; [|symmetry; exact Hfull]. f_equal. lia.
  - unfold replace_char. intros (c & Hc & _)%list_elem_of_fmap.
    destruct (c =? LF)%N eqn:Hcmp; [done|].
    apply N.eqb_neq in Hcmp. congruence.
  - rewrite py_slice_replace_char. f_equal.
    rewrite py_slice_py_slice by lia.
    etrans; [|symmetry; exact Hfull]. f_equal; lia.
Qed.

Lemma location_points_at_citation_witness :
  dict_get (SECTION_SIGN :: py " 12")
    (create_cross_reference_map db_latin1 StatuteCrossReferenceFinder
       padded_text)
    = Some [(60%Z, replicate 50 SP ++ SECTION_SIGN :: py " 12"
                     ++ replicate 50 SP)] ∧
  py_slice padded_text 60 (60 + len (SECTION_SIGN :: py " 12"))
    = SECTION_SIGN :: py " 12" ∧
  (LF ∉ replicate 50 SP ++ SECTION_SIGN :: py " 12" ++ replicate 50 SP) ∧
  py_slice (replicate 50 SP ++ SECTION_SIGN :: py " 12" ++ replicate 50 SP)
    (Z.min 60 50) (Z.min 60 50 + len (SECTION_SIGN :: py " 12"))
    = replace_char LF SP (SECTION_SIGN :: py " 12").
Proof.
  assert (dict_get (SECTION_SIGN :: py " 12")
            (create_cross_reference_map db_latin1 StatuteCrossReferenceFinder
               padded_text)
          = Some [(60%Z, replicate 50 SP ++ SECTION_SIGN :: py " 12"
                           ++ replicate 50 SP)]) as Hget
    by (vm_compute; reflexivity).
  split; [exact Hget|].
  exact (location_points_at_citation db_latin1 padded_text _ _ _ _ Hget
           (list_elem_of_here _ _)).
Defined.

Lemma xref_key_unique_sets (db : unicode_db) (text : str) (citation : str) :
  citation ∈ keys (cross_reference_map
                     (analyze_document db StatuteCrossReferenceFinder text)) ↔
  ∃ family cites,
    (family, cites) ∈
      unique_citations (analyze_document db StatuteCrossReferenceFinder text) ∧
    citation ∈ cites.
Proof.
  pose proof finder_keys_NoDup as Hnd.
  unfold analyze_document. cbn [cross_reference_map unique_citations].
  rewrite xref_keys, get_unique_references_eq by done. split.
  - intros (r & -> & (f & p & Hin & Hr)%raw_matches_elem)%list_elem_of_fmap.
    exists f, (list_to_set (full_text <$> family_matches db p text)).
    split; [|by apply elem_of_list_to_set, list_elem_of_fmap_2].
    apply list_elem_of_fmap.
    exists (f, family_matches db p text). split; [done|].
    apply matched_families_elem. split; [|by exists p].
    intros Hnil. rewrite Hnil in Hr. by apply elem_of_nil in Hr.
  - intros (f & cites & Hget & Hc).
    apply list_elem_of_fmap in Hget as ([f' refs] & [= -> ->] & Hm).
    apply matched_families_elem in Hm as (_ & p & Hin & ->).
    apply elem_of_list_to_set, list_elem_of_fmap in Hc as (r & -> & Hr).
    apply list_elem_of_fmap_2, raw_matches_elem. by exists f', p.
Qed.

Lemma unique_citations_keys_NoDup (db : unicode_db) (text : str) :
  NoDup (keys (unique_citations
                 (analyze_document db StatuteCrossReferenceFinder text))).
Proof.
  pose proof finder_keys_NoDup as Hnd.
  unfold analyze_document. cbn [unique_citations].
  rewrite get_unique_references_eq by done.
  rewrite (keys_fmap_values
             (λ l : list ref_data,
                list_to_set (full_text <$> l) : gset (list N))).
  by apply matched_families_keys_NoDup.
Qed.

(** The keys of the cross-reference map are exactly the citations of the
    unique-citation sets: a string is a key if and only if it belongs to
    the set of some family. *)
Theorem xref_keys_are_the_unique_citations (db : unicode_db) (text : str)
    (citation : str) :
  citation ∈ keys (cross_reference_map
                     (analyze_document db StatuteCrossReferenceFinder text)) ↔
  ∃ family cites,
    dict_get family
      (unique_citations (analyze_document db StatuteCrossReferenceFinder text))
      = Some cites ∧
    citation ∈ cites.
Proof.
  rewrite xref_key_unique_sets. split.
  - intros (f & cites & Hin & Hc). exists f, cites. split; [|done].
    apply dict_get_elem; [apply unique_citations_keys_NoDup | done].
  - intros (f & cites & Hget%dict_get_Some_elem & Hc). by exists f, cites.
Qed.

Lemma size_union_list_le (sets : list (gset (list N))) :
  (Z.of_nat (size (⋃ sets))
   ≤ py_sum ((λ s : gset (list N), Z.of_nat (size s)) <$> sets))%Z.
Proof.
  induction sets as [|X sets IH].
  - rewrite union_list_nil, size_empty. done.
  - rewrite union_list_cons, fmap_cons, py_sum_cons, size_union_alt.
    assert (size (⋃ sets ∖ X) ≤ size (⋃ sets)); [|lia].
    apply subseteq_size, subseteq_difference_l. done.
Qed.

(** The cross-reference map has at most [unique_references] keys: a
    string in the sets of two families is counted twice there and is one
    key here. *)
Theorem xref_keys_le_unique (db : unicode_db) (text : str) :
  (len (cross_reference_map
          (analyze_document db StatuteCrossReferenceFinder text))
   ≤ unique_references
       (analyze_document db StatuteCrossReferenceFinder text))%Z.
Proof.
  pose proof finder_keys_NoDup as Hnd.
  set (a := analyze_document db StatuteCrossReferenceFinder text).
  assert (unique_references a =
          py_sum ((λ s : gset (list N), Z.of_nat (size s))
                    <$> values (unique_citations a))) as -> by done.
  etrans; [|apply size_union_list_le].
  assert (NoDup (keys (cross_reference_map a))) as Hk
    by (by apply xref_keys_NoDup).
  assert (len (cross_reference_map a)
          = Z.of_nat (size (list_to_set (keys (cross_reference_map a))
                              : gset (list N)))) as ->.
  { rewrite size_list_to_set by done. unfold len, keys.
    by rewrite length_fmap. }
  apply inj_le, subseteq_size. intros c Hc%elem_of_list_to_set.
  apply xref_key_unique_sets in Hc as (f & cites & Hin & Hc).
  apply elem_of_union_list. exists cites. split; [|done].
  unfold values. apply list_elem_of_fmap. by exists (f, cites).
Qed.


(** * Facts about comparisons and [sorted] *)

Section OrderFacts.
Context {A : Type} `{EqDecision A} (lt : A → A → bool).
Hypothesis Hlt : strict_total lt.

Lemma strict_total_asym a b : lt a b = true → lt b a = false.
Proof.
  destruct Hlt as (Hirr & Htrans & _). intros Hab.
  destruct (lt b a) eqn:Hba; [|done].
  by rewrite <-(Hirr a), (Htrans a b a).
Qed.

Lemma seq_lt_strict_total : strict_total (seq_lt lt).
Proof.
  destruct Hlt as (Hirr & Htrans & Htri). split_and!.
  - intros l. induction l as [|x l IH]; [done|]. simpl.
    by rewrite bool_decide_true.
  - intros l1. induction l1 as [|x l1 IH]; intros [|y l2] [|z l3]; simpl;
      try done.
    destruct (bool_decide_reflect (x = y)) as [->|Hxy];
      destruct (bool_decide_reflect (y = z)) as [->|Hyz]; try done.
    + by apply IH.
    + intros Hxy' _. by rewrite bool_decide_false.
    + intros Hxy' Hyz'. destruct (bool_decide_reflect (x = z)) as [->|Hxz].
      * by rewrite (strict_total_asym _ _ Hxy') in Hyz'.
      * by eapply Htrans.
  - intros l1. induction l1 as [|x l1 IH]; intros [|y l2]; simpl; try done.
    destruct (bool_decide_reflect (x = y)) as [->|Hxy].
    + rewrite bool_decide_true by done. intros H1 H2. f_equal. by apply IH.
    + rewrite bool_decide_false by done. intros H1 H2.
      destruct Hxy. by apply Htri.
Qed.
End OrderFacts.

Section PairOrderFacts.
Context {A B : Type} `{EqDecision A} (lt1 : A → A → bool) (lt2 : B → B → bool).
Hypothesis Hlt1 : strict_total lt1.
Hypothesis Hlt2 : strict_total lt2.

Lemma pair_lt_strict_total : strict_total (pair_lt lt1 lt2).
Proof.
  destruct Hlt1 as (Hirr1 & Htrans1 & Htri1).
  destruct Hlt2 as (Hirr2 & Htrans2 & Htri2).
  unfold pair_lt. split_and!.
  - intros [a b]. simpl. by rewrite bool_decide_true.
  - intros [a1 b1] [a2 b2] [a3 b3]. simpl.
    destruct (bool_decide_reflect (a1 = a2)) as [->|H12];
      destruct (bool_decide_reflect (a2 = a3)) as [->|H23]; try done.
    + by apply Htrans2.
    + intros H1 _. by rewrite bool_decide_false.
    + intros H1 H2. destruct (bool_decide_reflect (a1 = a3)) as [->|H13].
      * by rewrite (strict_total_asym lt1 Hlt1 _ _ H1) in H2.
      * by eapply Htrans1.
  - intros [a1 b1] [a2 b2]. simpl.
    destruct (bool_decide_reflect (a1 = a2)) as [->|H12].
    + rewrite bool_decide_true by done. intros H1 H2. f_equal. by apply Htri2.
    + rewrite bool_decide_false by done. intros H1 H2.
      destruct H12. by apply Htri1.
Qed.
End PairOrderFacts.

Lemma N_ltb_strict_total : strict_total N.ltb.
Proof.
  split_and!.
  - apply N.ltb_irrefl.
  - intros a b c ?%N.ltb_lt ?%N.ltb_lt. apply N.ltb_lt. lia.
  - intros a b ?%N.ltb_ge ?%N.ltb_ge. lia.
Qed.

Lemma Z_ltb_strict_total : strict_total Z.ltb.
Proof.
  split_and!.
  - apply Z.ltb_irrefl.
  - intros a b c ?%Z.ltb_lt ?%Z.ltb_lt. apply Z.ltb_lt. lia.
  - intros a b ?%Z.ltb_ge ?%Z.ltb_ge. lia.
Qed.

Lemma str_lt_strict_total : strict_total str_lt.
Proof. apply seq_lt_strict_total, N_ltb_strict_total. Qed.

Lemma item_lt_strict_total : strict_total item_lt.
Proof.
  apply pair_lt_strict_total; [apply str_lt_strict_total|].
  apply seq_lt_strict_total, pair_lt_strict_total;
    [apply Z_ltb_strict_total | apply str_lt_strict_total].
Qed.

Section SortedFacts.
Context {A : Type} (lt : A → A → bool).

Lemma insert_sorted_Permutation x l : insert_sorted lt x l ≡ₚ x :: l.
Proof.
  induction l as [|y l IH]; simpl; [done|].
  destruct (lt x y); [done|]. rewrite IH. apply Permutation_swap.
Qed.

Lemma sorted_from_Permutation acc l :
  foldl (λ acc x, insert_sorted lt x acc) acc l ≡ₚ acc ++ l.
Proof.
  revert acc. induction l as [|x l IH]; intros acc; simpl.
  - by rewrite app_nil_r.
  - rewrite IH, insert_sorted_Permutation. simpl. apply Permutation_middle.
Qed.

(** [sorted] returns the elements it is given. *)
Lemma sorted_Permutation l : sorted lt l ≡ₚ l.
Proof. apply (sorted_from_Permutation []). Qed.

Hypothesis Hlt : strict_total lt.

Lemma insert_sorted_StronglySorted x l :
  StronglySorted (λ a b, lt b a = false) l →
  StronglySorted (λ a b, lt b a = false) (insert_sorted lt x l).
Proof.
  destruct Hlt as (Hirr & Htrans & Htri).
  induction 1 as [|y l Hl IH Hy]; simpl.
  - repeat constructor.
  - destruct (lt x y) eqn:Hxy.
    + constructor; [by constructor|]. constructor.
      * by apply (strict_total_asym lt Hlt).
      * eapply Forall_impl; [exact Hy|]. simpl. intros z Hzy.
        destruct (lt z x) eqn:Hzx; [|done].
        by rewrite (Htrans z x y) in Hzy.
    + constructor; [done|].
      rewrite insert_sorted_Permutation. by constructor.
Qed.

(** [sorted] returns them in ascending order. *)
Lemma sorted_StronglySorted l :
  StronglySorted (λ a b, lt b a = false) (sorted lt l).
Proof.
  unfold sorted. generalize (SSorted_nil (λ a b : A, lt b a = false)).
  generalize (@nil A) as acc. induction l as [|x l IH]; intros acc Hacc; simpl.
  - done.
  - by apply IH, insert_sorted_StronglySorted.
Qed.

(** [sorted] depends on the elements only, not on their order. *)
Lemma sorted_Permutation_eq l1 l2 : l1 ≡ₚ l2 → sorted lt l1 = sorted lt l2.
Proof.
  intros Hperm. destruct Hlt as (_ & _ & Htri).
  apply (StronglySorted_unique_strong (λ a b, lt b a = false)).
  - intros x1 x2 _ _ H1 H2. by apply Htri.
  - apply sorted_StronglySorted.
  - apply sorted_StronglySorted.
  - by rewrite !sorted_Permutation.
Qed.
End SortedFacts.


(** * Facts about the report *)

Lemma foldl_snoc_fmap {A B} (f : A → B) (r0 : list B) (l : list A) :
  foldl (λ r x, r ++ [f x]) r0 l = r0 ++ (f <$> l).
Proof.
  revert r0. induction l as [|x l IH]; intros r0; simpl.
  - by rewrite app_nil_r.
  - by rewrite IH, <-app_assoc.
Qed.

Lemma foldl_app_bind {A B} (f : list B → A → list B) (g : A → list B)
    (r0 : list B) (l : list A) :
  (∀ r x, f r x = r ++ g x) → foldl f r0 l = r0 ++ (l ≫= g).
Proof.
  intros Hf. revert r0. induction l as [|x l IH]; intros r0; simpl.
  - by rewrite app_nil_r.
  - by rewrite IH, Hf, <-app_assoc.
Qed.

(** The report, section by section. *)
Lemma report_lines_eq (a : analysis) :
  report_lines a =
    [rule 60; py "STATUTE CROSS-REFERENCE ANALYSIS"; rule 60;
     LF :: py "Total References Found: " ++ str_of_int (total_references a);
     py "Unique Citations: " ++ str_of_int (unique_references a);
     LF :: py "References by Type:"]
    ++ (type_line <$> by_type a)
    ++ [LF :: rule 60; py "UNIQUE CITATIONS"; rule 60]
    ++ (unique_citations a ≫= citations_block)
    ++ [LF :: rule 60; py "CROSS-REFERENCE MAP"; rule 60]
    ++ (sorted item_lt (cross_reference_map a) ≫= locations_block).
Proof.
  unfold report_lines. rewrite foldl_snoc_fmap.
  rewrite (foldl_app_bind _ locations_block).
  2:{ intros r [citation locations]. unfold locations_block.
      by rewrite foldl_snoc_fmap, <-app_assoc. }
  rewrite (foldl_app_bind _ citations_block).
  2:{ intros r [ref_type citations]. unfold citations_block. cbn [fst snd].
      destruct (bool_decide (citations ≠ ∅)); [|by rewrite app_nil_r].
      by rewrite foldl_snoc_fmap, <-app_assoc. }
  by rewrite <-!app_assoc.
Qed.

(** The position of the entries of the cross-reference map does not show
    in the report: the map is listed in sorted order. The raw match lists
    do not show either. *)
Theorem report_ignores_map_order (total unique : Z)
    (counts : list (string * Z)) (cites : list (string * gset (list N)))
    (xref1 xref2 : list (str * list (Z * str)))
    (refs1 refs2 : list (string * list ref_data)) :
  xref1 ≡ₚ xref2 →
  format_report (Analysis total unique counts cites xref1 refs1) =
    format_report (Analysis total unique counts cites xref2 refs2).
Proof.
  intros Hperm. unfold format_report, report_lines.
  cbn [total_references unique_references by_type unique_citations
       cross_reference_map].
  by rewrite (sorted_Permutation_eq item_lt item_lt_strict_total _ _ Hperm).
Qed.

Lemma report_ignores_map_order_witness :
  format_report
    (Analysis 2 2 [("USC"%string, 2%Z)] []
       [(py "b", [(7%Z, py "a b")]); (py "a", [(5%Z, py "a b")])] []) =
  format_report
    (Analysis 2 2 [("USC"%string, 2%Z)] []
       [(py "a", [(5%Z, py "a b")]); (py "b", [(7%Z, py "a b")])] []).
Proof.
  apply report_ignores_map_order. apply Permutation_swap.
Defined.

Lemma py_sum_Permutation (l1 l2 : list Z) : l1 ≡ₚ l2 → py_sum l1 = py_sum l2.
Proof.
  induction 1 as [|x l1 l2 _ IH|x y l|l1 l2 l3 _ IH1 _ IH2].
  - done.
  - by rewrite !py_sum_cons, IH.
  - rewrite !py_sum_cons. lia.
  - by rewrite IH1.
Qed.

Section CountFacts.
Context (P : str → Prop) `{∀ x, Decision (P x)}.

Lemma filter_none (l : list str) : Forall (λ x, ¬ P x) l → filter P l = [].
Proof.
  induction 1 as [|x l Hx _ IH]; [done|]. by rewrite filter_cons_False.
Qed.

Lemma filter_all (l : list str) : Forall P l → filter P l = l.
Proof.
  induction 1 as [|x l Hx _ IH]; [done|]. by rewrite filter_cons_True, IH.
Qed.

Lemma len_filter_bind {A} (f : A → list str) (l : list A) :
  len (filter P (l ≫= f)) = py_sum ((λ x, len (filter P (f x))) <$> l).
Proof.
  induction l as [|x l IH]; [done|].
  rewrite bind_cons, filter_app, fmap_cons, py_sum_cons, <-IH.
  unfold len. rewrite length_app. lia.
Qed.
End CountFacts.

Lemma type_line_kind (family : string) (count : Z) :
  family ∈ keys (patterns StatuteCrossReferenceFinder) →
  starts_with (py "  Position ") (type_line (family, count)) = false ∧
  starts_with (py "  " ++ [BULLET; SP]) (type_line (family, count)) = false.
Proof.
  intros Hin. apply list_elem_of_In in Hin. simpl in Hin.
  destruct Hin as [<-|[<-|[<-|[<-|[<-|[]]]]]]; split; reflexivity.
Qed.

Lemma by_type_keys (db : unicode_db) (text : str) (entry : string * Z) :
  entry ∈ by_type (analyze_document db StatuteCrossReferenceFinder text) →
  entry.1 ∈ keys (patterns StatuteCrossReferenceFinder).
Proof.
  rewrite by_type_eq by apply finder_keys_NoDup.
  intros ([f refs] & -> & (_ & p & Hin & _)%matched_families_elem)%list_elem_of_fmap.
  cbn [fst]. unfold keys. apply list_elem_of_fmap. by exists (f, p).
Qed.

Lemma citations_block_positions (entry : string * gset (list N)) :
  filter (λ l, starts_with (py "  Position ") l = true)
    (citations_block entry) = [].
Proof.
  unfold citations_block. destruct (bool_decide (entry.2 ≠ ∅)); [|done].
  rewrite filter_cons_False by (simpl; done).
  apply filter_none, Forall_fmap, Forall_forall. intros c _. simpl. done.
Qed.

Lemma citations_block_bullets (entry : string * gset (list N)) :
  len (filter (λ l, starts_with (py "  " ++ [BULLET; SP]) l = true)
         (citations_block entry)) = Z.of_nat (size entry.2).
Proof.
  unfold citations_block.
  destruct (bool_decide_reflect (entry.2 ≠ ∅)) as [Hne|He].
  - rewrite filter_cons_False by (simpl; done).
    rewrite filter_all by (apply Forall_fmap, Forall_forall; by intros c _).
    unfold len. rewrite length_fmap.
    by rewrite (Permutation_length (sorted_Permutation str_lt _)).
  - assert (entry.2 = ∅) as -> by (by destruct (decide (entry.2 = ∅))).
    by rewrite size_empty.
Qed.

Lemma locations_block_positions (item : str * list (Z * str)) :
  len (filter (λ l, starts_with (py "  Position ") l = true)
         (locations_block item)) = len item.2.
Proof.
  unfold locations_block. rewrite filter_cons_False by (simpl; done).
  rewrite filter_all by (apply Forall_fmap, Forall_forall; by intros c _).
  unfold len. by rewrite length_fmap.
Qed.

Lemma locations_block_bullets (item : str * list (Z * str)) :
  filter (λ l, starts_with (py "  " ++ [BULLET; SP]) l = true)
    (locations_block item) = [].
Proof.
  unfold locations_block. rewrite filter_cons_False by (simpl; done).
  apply filter_none, Forall_fmap, Forall_forall. intros c _. simpl. done.
Qed.

Lemma len_app {A} (l1 l2 : list A) : len (l1 ++ l2) = (len l1 + len l2)%Z.
Proof. unfold len. rewrite length_app. lia. Qed.

Lemma py_sum_fmap_ext {A} (f g : A → Z) (l : list A) :
  (∀ x, f x = g x) → py_sum (f <$> l) = py_sum (g <$> l).
Proof. intros Hfg. f_equal. apply list_fmap_ext. intros _ x _. apply Hfg. Qed.

Lemma py_sum_zero {A} (l : list A) : py_sum ((λ _, 0%Z) <$> l) = 0%Z.
Proof.
  induction l as [|x l IH]; [done|]. rewrite fmap_cons, py_sum_cons, IH. lia.
Qed.

(** The report of an analysis lists what its first lines announce: it has
    [total_references] position entries and [unique_references] bulleted
    citations. *)
Theorem report_lists_what_it_counts (db : unicode_db) (text : str) :
  len (filter (λ l, starts_with (py "  Position ") l = true)
         (report_lines
            (analyze_document db StatuteCrossReferenceFinder text)))
    = total_references
        (analyze_document db StatuteCrossReferenceFinder text) ∧
  len (filter (λ l, starts_with (py "  " ++ [BULLET; SP]) l = true)
         (report_lines
            (analyze_document db StatuteCrossReferenceFinder text)))
    = unique_references
        (analyze_document db StatuteCrossReferenceFinder text).
Proof.
  set (a := analyze_document db StatuteCrossReferenceFinder text).
  rewrite report_lines_eq, !filter_app.
  assert (Forall (λ x, ¬ (starts_with (py "  Position ") x = true))
            (type_line <$> by_type a)) as Ht1.
  { apply Forall_fmap, Forall_forall. intros [f n] Hin%by_type_keys.
    unfold compose. intros Hs.
    by rewrite (proj1 (type_line_kind f n Hin)) in Hs. }
  assert (Forall (λ x, ¬ (starts_with (py "  " ++ [BULLET; SP]) x = true))
            (type_line <$> by_type a)) as Ht2.
  { apply Forall_fmap, Forall_forall. intros [f n] Hin%by_type_keys.
    unfold compose. intros Hs.
    by rewrite (proj2 (type_line_kind f n Hin)) in Hs. }
  rewrite (filter_none _ _ Ht1), (filter_none _ _ Ht2).
  rewrite !len_app, !len_filter_bind.
  rewrite !filter_cons_False by (simpl; done). rewrite !filter_nil.
  rewrite (py_sum_fmap_ext
             (λ x, len (filter (λ l, starts_with (py "  Position ") l = true)
                          (citations_block x)))
             (λ _, 0%Z) (unique_citations a))
    by (intros x; by rewrite citations_block_positions).
  rewrite (py_sum_fmap_ext
             (λ x, len (filter (λ l, starts_with (py "  Position ") l = true)
                          (locations_block x)))
             (λ x, len x.2) (sorted item_lt (cross_reference_map a)))
    by apply locations_block_positions.
  rewrite (py_sum_fmap_ext
             (λ x, len (filter (λ l, starts_with (py "  " ++ [BULLET; SP]) l
                                     = true) (citations_block x)))
             (λ x, Z.of_nat (size x.2)) (unique_citations a))
    by apply citations_block_bullets.
  rewrite (py_sum_fmap_ext
             (λ x, len (filter (λ l, starts_with (py "  " ++ [BULLET; SP]) l
                                     = true) (locations_block x)))
             (λ _, 0%Z) (sorted item_lt (cross_reference_map a)))
    by (intros x; by rewrite locations_block_bullets).
  rewrite !py_sum_zero.
  rewrite (py_sum_Permutation _ ((λ x, len x.2) <$> cross_reference_map a))
    by (by rewrite sorted_Permutation).
  change (len []) with 0%Z. split.
  - pose proof (xref_locations_total db text) as Htot. fold a in Htot.
    rewrite <-Htot. unfold values.
    rewrite <-list_fmap_compose. unfold compose. lia.
  - assert (unique_references a =
            py_sum ((λ s : gset (list N), Z.of_nat (size s))
                      <$> values (unique_citations a))) as -> by done.
    unfold values. rewrite <-list_fmap_compose. unfold compose. lia.
Qed.

(** * The loaders *)

(** [load_document] returns a text only for a path that exists and whose
    lower-cased suffix is one of the four it knows; the text is what the
    reader of that format gives, the pages or the paragraphs joined by line
    feeds, and for a PDF or Word file the library is installed. *)
Theorem load_document_returns env file_path text :
  load_document env file_path = inr text →
  path_exists env file_path = inr true ∧
  let extension := str_lower env (path_suffix env file_path) in
  (extension = py ".txt" ∧ read_text env file_path = inr text) ∨
  (extension = py ".pdf" ∧ PDF_AVAILABLE env = true ∧
   ∃ pages, pdf_page_texts env file_path = inr pages ∧
            text = py_join [LF] pages) ∨
  (extension ∈ [py ".docx"; py ".doc"] ∧ DOCX_AVAILABLE env = true ∧
   ∃ paragraphs, docx_paragraph_texts env file_path = inr paragraphs ∧
                 text = py_join [LF] paragraphs).
Proof.
  unfold load_document, _load_txt, _load_pdf, _load_docx.
  destruct (path_exists env file_path) as [e|[]]; try done.
  intros H. split; [done|]. cbn zeta in *.
  destruct (decide (_ = py ".txt")) as [Ht|Ht]; [by left|].
  destruct (decide (_ = py ".pdf")) as [Hp|Hp].
  { right; left. destruct (PDF_AVAILABLE env); [|done].
    destruct (pdf_page_texts env file_path) as [e|pages]; [done|].
    cbn in H. injection H as <-. eauto. }
  destruct (bool_decide_reflect (str_lower env (path_suffix env file_path)
                                   ∈ [py ".docx"; py ".doc"])) as [Hd|Hd]; [|done].
  right; right. destruct (DOCX_AVAILABLE env); [|done].
  destruct (docx_paragraph_texts env file_path) as [e|pages]; [done|].
  cbn in H. injection H as <-. eauto.
Qed.

Lemma load_document_returns_witness :
  load_document sample_env (py "act.TXT") = inr sample_text ∧
  path_exists sample_env (py "act.TXT") = inr true ∧
  let extension := str_lower sample_env (path_suffix sample_env (py "act.TXT")) in
  (extension = py ".txt" ∧ read_text sample_env (py "act.TXT") = inr sample_text) ∨
  (extension = py ".pdf" ∧ PDF_AVAILABLE sample_env = true ∧
   ∃ pages, pdf_page_texts sample_env (py "act.TXT") = inr pages ∧
            sample_text = py_join [LF] pages) ∨
  (extension ∈ [py ".docx"; py ".doc"] ∧ DOCX_AVAILABLE sample_env = true ∧
   ∃ paragraphs, docx_paragraph_texts sample_env (py "act.TXT") = inr paragraphs ∧
                 sample_text = py_join [LF] paragraphs).
Proof.
  split; [reflexivity|].
  apply (load_document_returns sample_env (py "act.TXT") sample_text).
  reflexivity.
Defined.

(** Once the path exists, only the reading of a plain text file can raise
    anything but a [ValueError]: an unknown suffix, a missing library and
    every failure inside the PDF or Word reader come out as [ValueError]. *)
Theorem load_failures_are_value_errors env file_path e :
  path_exists env file_path = inr true →
  str_lower env (path_suffix env file_path) ≠ py ".txt" →
  load_document env file_path = inl e →
  exn_class_of e = ValueError.
Proof.
  unfold load_document, _load_txt, _load_pdf, _load_docx.
  intros -> Ht. cbn zeta.
  destruct (decide (_ = py ".txt")) as [|_]; [done|].
  destruct (decide (_ = py ".pdf")) as [Hp|Hp].
  { destruct (PDF_AVAILABLE env); cbn; [|by intros [= <-]].
    destruct (pdf_page_texts env file_path); [by intros [= <-]|done]. }
  destruct (bool_decide _); [|by intros [= <-]].
  destruct (DOCX_AVAILABLE env); cbn; [|by intros [= <-]].
  destruct (docx_paragraph_texts env file_path); [by intros [= <-]|done].
Qed.

Lemma load_failures_are_value_errors_witness :
  exn_class_of
    (Exn ValueError
       (py "PyPDF2 is not installed. Install it with: pip install PyPDF2"))
    = ValueError.
Proof.
  apply (load_failures_are_value_errors pdf_env (py "act.pdf")).
  - reflexivity.
  - vm_compute. discriminate.
  - reflexivity.
Defined.

(** * The script *)

Lemma quiet_print s : quiet (print s).
Proof. intros w. by eexists _, _. Qed.

Lemma quiet_ret {A} (x : A) : quiet (m_ret x).
Proof. intros [i o f]. exists [], x. unfold m_ret. cbn. by rewrite app_nil_r. Qed.

Lemma quiet_bind {A B} (c : M A) (k : A → M B) :
  quiet c → (∀ x, quiet (k x)) → quiet (m_bind c k).
Proof.
  intros Hc Hk w. unfold m_bind.
  destruct (Hc w) as (out & x & ->).
  destruct (Hk x (IO (stdin w) (stdout w ++ out) (writes w))) as (out' & y & ->).
  cbn. exists (out ++ out'), y. by rewrite app_assoc.
Qed.

Lemma quiet_banner env : quiet (banner env).
Proof.
  unfold banner.
  repeat (apply quiet_bind; [apply quiet_print|intros _]). apply quiet_print.
Qed.

Lemma quiet_report_error file_path e : quiet (report_error file_path e).
Proof.
  unfold report_error. destruct (exn_class_of e);
    repeat (apply quiet_bind; [apply quiet_print|intros _]); apply quiet_print.
Qed.

(** The script up to the first prompt. *)
Lemma main_prompt env w line rest :
  stdin w = line :: rest →
  ∃ out, (banner env ;;;
          input (LF :: py "Enter the path to your document (.txt, .pdf, or .docx): ")) w
         = (IO rest (stdout w ++ out) (writes w), inr line).
Proof.
  intros Hin. unfold m_bind.
  destruct (quiet_banner env w) as (out & [] & ->).
  unfold input. cbn. rewrite Hin. eexists. by rewrite <-app_assoc.
Qed.

Lemma main_eof env w :
  stdin w = [] →
  ∃ out, (banner env ;;;
          input (LF :: py "Enter the path to your document (.txt, .pdf, or .docx): ")) w
         = (IO [] (stdout w ++ out) (writes w),
            inl (Exn OtherException (py "EOF when reading a line"))).
Proof.
  intros Hin. unfold m_bind.
  destruct (quiet_banner env w) as (out & [] & ->).
  unfold input. cbn. rewrite Hin. eexists. by rewrite <-app_assoc.
Qed.

Lemma try_except_report_error (body : M unit) file_path w :
  ∃ w', try_except body (report_error file_path) w = (w', inr tt) ∧
        writes w' = writes (body w).1.
Proof.
  unfold try_except. destruct (body w) as [w' [e|[]]]; [|by eexists].
  destruct (quiet_report_error file_path e w') as (out & [] & ->).
  by eexists.
Qed.


Lemma process_writes db env file_path w :
  writes (process db env file_path w).1 = writes w ++
    match load_document env file_path, stdin w with
    | inr text, answer :: name :: _ =>
        if bool_decide (str_lower env (strip db answer) ∈ [py "yes"; py "y"])
        then [(output_name db name,
               format_report (analyze_document db StatuteCrossReferenceFinder text))]
        else []
    | _, _ => []
    end.
Proof.
  unfold process, m_bind, lift, analyze_file, print, input, write_file, m_ret.
  cbn [stdin stdout writes fst snd].
  destruct (load_document env file_path) as [e|text];
    cbn [stdin stdout writes fst snd]; [by rewrite app_nil_r|].
  destruct (stdin w) as [|answer rest];
    cbn [stdin stdout writes fst snd]; [by rewrite app_nil_r|].
  destruct (bool_decide _); cbn [stdin stdout writes fst snd].
  - destruct rest as [|name rest];
      cbn [stdin stdout writes fst snd]; [by rewrite app_nil_r|].
    unfold output_name.
    destruct (strip db name) as [|c s]; cbn [stdin stdout writes fst snd];
      destruct (write_text env _ _); done.
  - destruct rest; by rewrite app_nil_r.
Qed.

Lemma main_writes db env w line rest :
  stdin w = line :: rest → clean_path db line ≠ [] →
  ∃ out, writes (main db env w).1 =
    writes (process db env (clean_path db line)
              (IO rest (stdout w ++ out) (writes w))).1.
Proof.
  intros Hin Hpath. unfold main.
  destruct (main_prompt env w line rest Hin) as (out & ->). exists out.
  destruct (clean_path db line) as [|c file_path] eqn:Hp; [done|].
  destruct (try_except_report_error (process db env (c :: file_path))
              (c :: file_path) (IO rest (stdout w ++ out) (writes w)))
    as (w' & -> & Hw).
  done.
Qed.

(** The script writes at most one file, and only the report: a run leaves
    the files alone unless a document was loaded from the cleaned path and
    the answer to the second prompt, stripped and lower-cased, is [yes] or
    [y]; the file then written holds the report of the loaded text. *)
Theorem script_writes_only_the_report db env w :
  writes (main db env w).1 = writes w ∨
  ∃ line answer name rest text,
    stdin w = line :: answer :: name :: rest ∧
    clean_path db line ≠ [] ∧
    load_document env (clean_path db line) = inr text ∧
    str_lower env (strip db answer) ∈ [py "yes"; py "y"] ∧
    writes (main db env w).1 =
      writes w ++ [(output_name db name,
                    format_report
                      (analyze_document db StatuteCrossReferenceFinder text))].
Proof.
  destruct (stdin w) as [|line rest] eqn:Hin.
  { left. unfold main. by destruct (main_eof env w Hin) as (out & ->). }
  destruct (decide (clean_path db line = [])) as [Hp|Hp].
  { left. unfold main.
    destruct (main_prompt env w line rest Hin) as (out & ->).
    by rewrite Hp. }
  destruct (main_writes db env w line rest Hin Hp) as (out & ->).
  rewrite process_writes. cbn [stdin writes].
  destruct (load_document env (clean_path db line)) as [e|text] eqn:Hload;
    [left; by rewrite app_nil_r|].
  destruct rest as [|answer [|name rest]]; [left; by rewrite app_nil_r..|].
  destruct (bool_decide_reflect (str_lower env (strip db answer)
                                   ∈ [py "yes"; py "y"])) as [Hyes|Hno];
    [|left; by rewrite app_nil_r].
  right. by eexists line, answer, name, rest, text.
Qed.



